(** * VideoChess: a shallow embedding of [src/chess.py]

    The rules engine of class [VideoChess] is translated function by
    function.  Python exceptions are modelled by the error monad [result];
    the 8x8 board is the list of rows the source uses, read and written with
    Python's index rules (negative indices count from the end, anything else
    out of range raises [IndexError]). *)

From Stdlib Require Import ZArith List Bool Ascii String Lia DecimalString.
From stdpp Require Import base list.
Import ListNotations.
Open Scope Z_scope.

(** ** Exceptions and the error monad *)

Inductive exn : Type :=
| IndexError | TypeError | AttributeError | StopIteration | ValueError
| NonLatin1      (* chr of a code point above 255: outside the string model *)
| OutOfFuel.     (* a while loop exceeded the bound of the model *)

Inductive result (A : Type) : Type :=
| Ok (a : A)
| Err (e : exn).
Arguments Ok {A} a.
Arguments Err {A} e.

Definition bind {A B} (m : result A) (k : A -> result B) : result B :=
  match m with Ok a => k a | Err e => Err e end.

Notation "'let*' x ':=' m 'in' k" := (bind m (fun x => k))
  (at level 10, x name, m at level 100, k at level 200).

Module Loop.

Fixpoint mapM {A B} (f : A -> result B) (l : list A) : result (list B) :=
  match l with
  | [] => Ok []
  | x :: xs => let* y := f x in let* ys := mapM f xs in Ok (y :: ys)
  end.

(** [for x in l: acc += f(x)] *)
Fixpoint concatM {A B} (f : A -> result (list B)) (l : list A)
  : result (list B) :=
  match l with
  | [] => Ok []
  | x :: xs => let* y := f x in let* ys := concatM f xs in Ok (y ++ ys)
  end.

(** [[x for x in l if p(x)]] *)
Fixpoint filterM {A} (p : A -> result bool) (l : list A) : result (list A) :=
  match l with
  | [] => Ok []
  | x :: xs =>
      let* b := p x in
      let* ys := filterM p xs in
      Ok (if b then x :: ys else ys)
  end.

(** [any(p(x) for x in l)]: stops at the first true. *)
Fixpoint anyM {A} (p : A -> result bool) (l : list A) : result bool :=
  match l with
  | [] => Ok false
  | x :: xs => let* b := p x in if b then Ok true else anyM p xs
  end.

(** [all(p(x) for x in l)]: stops at the first false. *)
Fixpoint allM {A} (p : A -> result bool) (l : list A) : result bool :=
  match l with
  | [] => Ok true
  | x :: xs => let* b := p x in if b then allM p xs else Ok false
  end.

(** The first element satisfying [p], scanning from the left. *)
Fixpoint findM {A} (p : A -> result bool) (l : list A) : result (option A) :=
  match l with
  | [] => Ok None
  | x :: xs => let* b := p x in if b then Ok (Some x) else findM p xs
  end.

End Loop.

(** ** Data model *)

Inductive Color : Type := White | Black.
Inductive Kind : Type := Pawn | Knight | Bishop | Rook | Queen | King.
Inductive Side : Type := KSide | QSide.

(** A board cell holds [None] or a one-letter string; upper case is white.
    ['P'] is [(White, Pawn)], ['n'] is [(Black, Knight)] and so on. *)
Record Piece : Type := mkPiece { pcolor : Color; pkind : Kind }.

Abbreviation Square := (Z * Z)%type.
Abbreviation Board := (list (list (option Piece))).

Definition color_eqb (a b : Color) : bool :=
  match a, b with White, White | Black, Black => true | _, _ => false end.

Definition kind_eqb (a b : Kind) : bool :=
  match a, b with
  | Pawn, Pawn | Knight, Knight | Bishop, Bishop
  | Rook, Rook | Queen, Queen | King, King => true
  | _, _ => false
  end.

Definition side_eqb (a b : Side) : bool :=
  match a, b with KSide, KSide | QSide, QSide => true | _, _ => false end.

Definition opposite (c : Color) : Color :=
  match c with White => Black | Black => White end.

Definition sq_eqb (a b : Square) : bool :=
  (fst a =? fst b) && (snd a =? snd b).

(** The dict built by [_create_move]: ['start'], ['end'], and the optional
    keys ['en_passant'] (always [True] when present) and ['castle']. *)
Record Move : Type := mkMove {
  m_start : Square;
  m_end : Square;
  m_en_passant : bool;
  m_castle : option Side
}.

Definition move_eqb (a b : Move) : bool :=
  sq_eqb (m_start a) (m_start b) && sq_eqb (m_end a) (m_end b)
  && Bool.eqb (m_en_passant a) (m_en_passant b)
  && match m_castle a, m_castle b with
     | None, None => true
     | Some x, Some y => side_eqb x y
     | _, _ => false
     end.

Record Rights : Type := mkRights { right_K : bool; right_Q : bool }.
Record Castling : Type := mkCastling { of_white : Rights; of_black : Rights }.

Definition rights_of (c : Castling) (p : Color) : Rights :=
  match p with White => of_white c | Black => of_black c end.

Definition set_rights (c : Castling) (p : Color) (r : Rights) : Castling :=
  match p with
  | White => mkCastling r (of_black c)
  | Black => mkCastling (of_white c) r
  end.

Definition right_of (r : Rights) (sd : Side) : bool :=
  match sd with KSide => right_K r | QSide => right_Q r end.

Record VideoChess : Type := mkVideoChess {
  board : Board;
  current_player : Color;
  castling : Castling;
  en_passant : option Square;
  move_number : Z;
  halfmove : Z;
  history : list Board;
  check : bool
}.

(** ** Python list indexing *)

Definition py_norm (n i : Z) : result nat :=
  let j := if i <? 0 then i + n else i in
  if (0 <=? j) && (j <? n) then Ok (Z.to_nat j) else Err IndexError.

Definition py_index {A} (l : list A) (i : Z) : result A :=
  let* j := py_norm (Z.of_nat (length l)) i in
  match l !! j with Some x => Ok x | None => Err IndexError end.

Definition py_store {A} (l : list A) (i : Z) (x : A) : result (list A) :=
  let* j := py_norm (Z.of_nat (length l)) i in
  Ok (<[j := x]> l).

(** [board[r][c]] *)
Definition get (b : Board) (r c : Z) : result (option Piece) :=
  let* row := py_index b r in py_index row c.

(** [board[r][c] = v] *)
Definition put (b : Board) (r c : Z) (v : option Piece) : result Board :=
  let* row := py_index b r in
  let* row' := py_store row c v in
  py_store b r row'.

Definition range8 : list Z := [0; 1; 2; 3; 4; 5; 6; 7].

(** [(r, c) for r in range(8) for c in range(8)] *)
Definition squares : list Square :=
  flat_map (fun r => map (fun c => (r, c)) range8) range8.

(** ** The constructor and [_initialize_board] *)

Definition back_rank : list Kind :=
  [Rook; Knight; Bishop; Queen; King; Bishop; Knight; Rook].

Definition _initialize_board : Board :=
  let row (c : Color) (ks : list Kind) := map (fun k => Some (mkPiece c k)) ks in
  let empty := repeat (@None Piece) 8 in
  [ row Black back_rank; row Black (repeat Pawn 8);
    empty; empty; empty; empty;
    row White (repeat Pawn 8); row White back_rank ].

Definition init : VideoChess :=
  {| board := _initialize_board;
     current_player := White;
     castling := mkCastling (mkRights true true) (mkRights true true);
     en_passant := None;
     move_number := 1;
     halfmove := 0;
     history := [];
     check := false |}.

(** ** Small predicates *)

Definition _color (p : Piece) : Color := pcolor p.

Definition _create_move (r1 c1 r2 c2 : Z) : Move :=
  mkMove (r1, c1) (r2, c2) false None.

Definition _is_valid (r c : Z) : bool :=
  (0 <=? r) && (r <? 8) && (0 <=? c) && (c <? 8).

Definition is_king_of (col : Color) (x : option Piece) : bool :=
  match x with
  | Some p => kind_eqb (pkind p) King && color_eqb (_color p) col
  | None => false
  end.

Definition is_color (col : Color) (x : option Piece) : bool :=
  match x with Some p => color_eqb (_color p) col | None => false end.

(** [_clear_path]: the unit step towards the target, then the while loop.
    Every iteration reads the board, so on an 8x8 board at most sixteen
    iterations pass before the target is met or [IndexError] is raised. *)
Fixpoint clear_path_loop (fuel : nat) (b : Board) (dr dc r c r2 c2 : Z)
  : result bool :=
  match fuel with
  | O => Err OutOfFuel
  | S fuel' =>
      if sq_eqb (r, c) (r2, c2) then Ok true
      else
        let* x := get b r c in
        match x with
        | Some _ => Ok false
        | None => clear_path_loop fuel' b dr dc (r + dr) (c + dc) r2 c2
        end
  end.

Definition _clear_path (b : Board) (r1 c1 r2 c2 : Z) : result bool :=
  let dr := (r2 - r1) / Z.max 1 (Z.abs (r2 - r1)) in
  let dc := (c2 - c1) / Z.max 1 (Z.abs (c2 - c1)) in
  clear_path_loop 20 b dr dc (r1 + dr) (c1 + dc) r2 c2.

(** ** Helpers the source calls but does not define

    [_attacks] calls [self._clear_diagonal] and [self._clear_straight], and
    [_king_moves] calls [self._attacked]; no file of the repository defines
    them.  The engine is therefore parameterised by them: each is a total
    boolean function of the state and the squares it is passed. *)
Record Absent : Type := mkAbsent {
  _attacked : VideoChess -> Z -> Z -> bool;
  _clear_diagonal : VideoChess -> Z -> Z -> Z -> Z -> bool;
  _clear_straight : VideoChess -> Z -> Z -> Z -> Z -> bool
}.

Section Engine.

Variable ext : Absent.

Definition _is_empty (s : VideoChess) (r c : Z) : result bool :=
  if _is_valid r c then
    let* x := get (board s) r c in
    Ok (match x with None => true | Some _ => false end)
  else Ok false.

Definition _is_enemy (s : VideoChess) (r c : Z) : result bool :=
  if _is_valid r c then
    let* x := get (board s) r c in
    Ok (match x with
        | Some p => negb (color_eqb (_color p) (current_player s))
        | None => false
        end)
  else Ok false.

Definition _can_move (s : VideoChess) (r c : Z) : result bool :=
  let* e := _is_empty s r c in
  if e then Ok true else _is_enemy s r c.

(** *** Attack geometry *)

Definition _attacks (s : VideoChess) (src tgt : Square) : result bool :=
  let '(sr, sc) := src in
  let '(tr, tc) := tgt in
  let* x := get (board s) sr sc in
  match x with
  | None => Err AttributeError
  | Some p =>
      let dr := tr - sr in
      let dc := tc - sc in
      match pkind p with
      | Pawn =>
          let direction :=
            match _color p with Black => 1 | White => -1 end in
          Ok ((dr =? direction) && (Z.abs dc =? 1))
      | Knight => Ok (dr ^ 2 + dc ^ 2 =? 5)
      | King => Ok (Z.max (Z.abs dr) (Z.abs dc) =? 1)
      | Bishop =>
          Ok ((dr ^ 2 =? dc ^ 2) && _clear_diagonal ext s sr sc tr tc)
      | Rook =>
          Ok (((dr =? 0) || (dc =? 0)) && _clear_straight ext s sr sc tr tc)
      | Queen =>
          if (dr ^ 2 =? dc ^ 2) || (dr =? 0) || (dc =? 0)
          then _clear_path (board s) sr sc tr tc
          else Ok false
      end
  end.

Definition _all_enemy_positions (s : VideoChess) (color : Color)
  : result (list Square) :=
  let enemy := match color with White => Black | Black => White end in
  Loop.filterM
    (fun '(r, c) => let* x := get (board s) r c in Ok (is_color enemy x))
    squares.

Definition king_pos (s : VideoChess) (color : Color) : result Square :=
  let* found :=
    Loop.findM
      (fun '(r, c) =>
         let* x := get (board s) r c in Ok (is_king_of color x))
      squares in
  match found with
  | Some sq => Ok sq
  | None => Err StopIteration
  end.

Definition _in_check (s : VideoChess) (color : Color) : result bool :=
  let* kp := king_pos s color in
  let* poss := _all_enemy_positions s color in
  Loop.anyM (fun pos => _attacks s pos kp) poss.

(** *** The move applier *)

Definition _apply_move (s : VideoChess) (move : Move) : result VideoChess :=
  let '(sr, sc) := m_start move in
  let '(er, ec) := m_end move in
  let* piece := get (board s) sr sc in
  let* captured := get (board s) er ec in
  (* special moves *)
  let* special :=
    if m_en_passant move then
      let* cap := get (board s) sr ec in
      let* b := put (board s) sr ec None in
      Ok (b, cap)
    else
      match m_castle move with
      | Some _ =>
          (* [self.board[rook_from]]: a list indexed by a tuple *)
          Err TypeError
      | None => Ok (board s, captured)
      end in
  let '(b1, captured) := special in
  match piece with
  | None => Err AttributeError            (* [None.lower()] *)
  | Some p =>
      let me := current_player s in
      (* castling rights *)
      let cast :=
        match pkind p with
        | King => set_rights (castling s) me (mkRights false false)
        | Rook =>
            let r0 := rights_of (castling s) me in
            let r1 := if sc =? 7 then mkRights false (right_Q r0) else r0 in
            let r2 := if sc =? 0 then mkRights (right_K r1) false else r1 in
            set_rights (castling s) me r2
        | _ => castling s
        end in
      (* promotion (auto-queen) *)
      let piece :=
        if kind_eqb (pkind p) Pawn && ((er =? 0) || (er =? 7))
        then mkPiece me Queen else p in
      (* board *)
      let* b2 := put b1 sr sc None in
      let* b3 := put b2 er ec (Some piece) in
      (* en passant target *)
      let ep :=
        if kind_eqb (pkind piece) Pawn && (Z.abs (sr - er) =? 2)
        then Some (er + (match me with White => 1 | Black => -1 end), ec)
        else None in
      (* game state *)
      let player := opposite me in
      let s1 :=
        {| board := b3; current_player := player; castling := cast;
           en_passant := ep; move_number := move_number s;
           halfmove := halfmove s; history := history s;
           check := check s |} in
      let* chk := _in_check s1 player in
      Ok {| board := b3;
            current_player := player;
            castling := cast;
            en_passant := ep;
            move_number :=
              move_number s + (match player with White => 1 | Black => 0 end);
            halfmove :=
              if kind_eqb (pkind piece) Pawn
                 || (match captured with Some _ => true | None => false end)
              then 0 else halfmove s + 1;
            history := history s ++ [b3];
            check := chk |}
  end.

Definition _leaves_check (s : VideoChess) (move : Move) : result bool :=
  let* temp := _apply_move s move in
  _in_check temp (current_player s).

(** *** Move generation *)

(** The while loop of [_slide] along one direction; it leaves the board
    after at most seven squares. *)
Fixpoint slide_loop (fuel : nat) (s : VideoChess) (row col dr dc r c : Z)
  : result (list Move) :=
  match fuel with
  | O => Err OutOfFuel
  | S fuel' =>
      if _is_valid r c then
        let* x := get (board s) r c in
        match x with
        | None =>
            let* rest := slide_loop fuel' s row col dr dc (r + dr) (c + dc) in
            Ok (_create_move row col r c :: rest)
        | Some _ =>
            let* en := _is_enemy s r c in
            Ok (if en then [_create_move row col r c] else [])
        end
      else Ok []
  end.

Definition _slide (s : VideoChess) (row col : Z) (directions : list (Z * Z))
  : result (list Move) :=
  Loop.concatM
    (fun '(dr, dc) => slide_loop 9 s row col dr dc (row + dr) (col + dc))
    directions.

Definition _pawn_moves (s : VideoChess) (row col : Z) : result (list Move) :=
  let direction := match current_player s with White => -1 | Black => 1 end in
  let start_row := match current_player s with White => 6 | Black => 1 end in
  (* forward moves *)
  let* e1 := _is_empty s (row + direction) col in
  let* forward :=
    if e1 then
      let one := _create_move row col (row + direction) col in
      if row =? start_row then
        let* e2 := _is_empty s (row + 2 * direction) col in
        Ok (if e2
            then [one; _create_move row col (row + 2 * direction) col]
            else [one])
      else Ok [one]
    else Ok [] in
  (* captures *)
  let* captures :=
    Loop.concatM
      (fun dc =>
         let* en := _is_enemy s (row + direction) (col + dc) in
         let cap :=
           if en then [_create_move row col (row + direction) (col + dc)]
           else [] in
         let ep :=
           match en_passant s with
           | Some t =>
               if sq_eqb (row + direction, col + dc) t
               then [mkMove (row, col) (row + direction, col + dc) true None]
               else []
           | None => []
           end in
         Ok (cap ++ ep))
      [-1; 1] in
  Ok (forward ++ captures).

Definition step_moves (s : VideoChess) (row col : Z) (deltas : list (Z * Z))
  : result (list Move) :=
  Loop.concatM
    (fun '(dr, dc) =>
       let* ok := _can_move s (row + dr) (col + dc) in
       Ok (if ok then [_create_move row col (row + dr) (col + dc)] else []))
    deltas.

Definition knight_deltas : list (Z * Z) :=
  [(-2, -1); (-2, 1); (-1, -2); (-1, 2); (1, -2); (1, 2); (2, -1); (2, 1)].

Definition _knight_moves (s : VideoChess) (row col : Z) :=
  step_moves s row col knight_deltas.

Definition _bishop_moves (s : VideoChess) (row col : Z) :=
  _slide s row col [(-1, -1); (-1, 1); (1, -1); (1, 1)].

Definition _rook_moves (s : VideoChess) (row col : Z) :=
  _slide s row col [(-1, 0); (1, 0); (0, -1); (0, 1)].

Definition _queen_moves (s : VideoChess) (row col : Z) :=
  let* a := _rook_moves s row col in
  let* b := _bishop_moves s row col in
  Ok (a ++ b).

(** [(dr, dc) for dr in (-1,0,1) for dc in (-1,0,1) if (dr,dc) != (0,0)] *)
Definition king_deltas : list (Z * Z) :=
  [(-1, -1); (-1, 0); (-1, 1); (0, -1); (0, 1); (1, -1); (1, 0); (1, 1)].

Definition castle_candidate (s : VideoChess) (row col : Z) (sd : Side)
  : result (list Move) :=
  if negb (check s)
     && right_of (rights_of (castling s) (current_player s)) sd
  then
    let between := match sd with KSide => [5; 6] | QSide => [1; 2; 3] end in
    let crossed := match sd with KSide => 5 | QSide => 3 end in
    let target := match sd with KSide => 6 | QSide => 2 end in
    let* clear := Loop.allM (fun c => _is_empty s row c) between in
    if clear && negb (_attacked ext s row crossed)
    then Ok [mkMove (row, col) (row, target) false (Some sd)]
    else Ok []
  else Ok [].

Definition _king_moves (s : VideoChess) (row col : Z) : result (list Move) :=
  let* moves := step_moves s row col king_deltas in
  let* k := castle_candidate s row col KSide in
  let* q := castle_candidate s row col QSide in
  Ok (moves ++ k ++ q).

Definition _piece_moves (s : VideoChess) (row col : Z) : result (list Move) :=
  let* x := get (board s) row col in
  match x with
  | None => Err AttributeError
  | Some p =>
      match pkind p with
      | Pawn => _pawn_moves s row col
      | Knight => _knight_moves s row col
      | Bishop => _bishop_moves s row col
      | Rook => _rook_moves s row col
      | Queen => _queen_moves s row col
      | King => _king_moves s row col
      end
  end.

(** The double loop of [get_legal_moves], before the filter. *)
Definition pseudo_legal_moves (s : VideoChess) : result (list Move) :=
  Loop.concatM
    (fun '(r, c) =>
       let* x := get (board s) r c in
       if is_color (current_player s) x then _piece_moves s r c else Ok [])
    squares.

Definition get_legal_moves (s : VideoChess) : result (list Move) :=
  let* moves := pseudo_legal_moves s in
  Loop.filterM
    (fun m => let* b := _leaves_check s m in Ok (negb b))
    moves.

(** *** Notation codec *)

Definition letter (k : Kind) : string :=
  match k with
  | Pawn => "P" | Knight => "N" | Bishop => "B"
  | Rook => "R" | Queen => "Q" | King => "K"
  end%string.

Definition chr (n : Z) : result string :=
  if (n <? 0) || (1114111 <? n) then Err ValueError
  else if n <? 256 then Ok (String (ascii_of_N (Z.to_N n)) EmptyString)
  else Err NonLatin1.

Definition str (n : Z) : string := NilZero.string_of_int (Z.to_int n).

Definition _to_san (s : VideoChess) (move : Move) : result string :=
  let '(sr, sc) := m_start move in
  let '(er, ec) := m_end move in
  let* x := get (board s) sr sc in
  match x with
  | None => Err AttributeError             (* [None.upper()] *)
  | Some p =>
      let piece :=
        if kind_eqb (pkind p) Pawn then EmptyString else letter (pkind p) in
      let* file := chr (97 + sc) in
      let* y := get (board s) er ec in
      let capture :=
        match y with Some _ => "x" | None => EmptyString end%string in
      let* dest_file := chr (97 + ec) in
      let dest := (dest_file ++ str (8 - er))%string in
      Ok (piece ++ file ++ capture ++ dest)%string
  end.

Fixpoint _parse_san (s : VideoChess) (san : string) (legal_moves : list Move)
  : result (option Move) :=
  match legal_moves with
  | [] => Ok None
  | move :: rest =>
      let* t := _to_san s move in
      if String.eqb t san then Ok (Some move) else _parse_san s san rest
  end.

(** *** One turn of [play]

    [action] is the text returned by the external chooser.  Printing and
    the turn log ([_log_move], [_save_log]) come after the move has been
    applied and are not part of the embedding. *)
Inductive Turn : Type :=
| GameOver (checkmate : bool)
| Played (s' : VideoChess).

Definition play_turn (s : VideoChess) (action : string) : result Turn :=
  let* legal_moves := get_legal_moves s in
  match legal_moves with
  | [] => Ok (GameOver (check s))
  | first :: _ =>
      let* san_moves := Loop.mapM (_to_san s) legal_moves in
      let* move := _parse_san s action legal_moves in
      match move with
      | Some m => let* s' := _apply_move s m in Ok (Played s')
      | None => let* s' := _apply_move s first in Ok (Played s')
      end
  end.

(** Playing a list of moves from a state, each one checked against the
    legal-move list of the state it is played in. *)
Fixpoint play_moves (s : VideoChess) (ms : list Move) : result VideoChess :=
  match ms with
  | [] => Ok s
  | m :: rest =>
      let* legal := get_legal_moves s in
      if existsb (move_eqb m) legal
      then let* s' := _apply_move s m in play_moves s' rest
      else Err ValueError
  end.

End Engine.

(** ** The absent helpers, from the specification *)

(** [k] steps of a unit move from the first square towards the second. *)
Definition toward (r1 c1 r2 c2 : Z) (k : Z) : Square :=
  (r1 + k * Z.sgn (r2 - r1), c1 + k * Z.sgn (c2 - c1)).

Definition strictly_between (r1 c1 r2 c2 : Z) : list Square :=
  let d := Z.max (Z.abs (r2 - r1)) (Z.abs (c2 - c1)) in
  map (fun k => toward r1 c1 r2 c2 (Z.of_nat k)) (seq 1 (Z.to_nat d - 1)).

Definition vacant (b : Board) (sq : Square) : bool :=
  match get b (fst sq) (snd sq) with Ok None => true | _ => false end.

(** Modelled from the spec: [_clear_straight] and [_clear_diagonal], which
    the source calls and never defines.  The spec asks that "sliding rays
    must be unobstructed": every square strictly between the attacker and
    its target is empty. *)
Definition spec_clear_line (s : VideoChess) (r1 c1 r2 c2 : Z) : bool :=
  forallb (vacant (board s)) (strictly_between r1 c1 r2 c2).

Definition spec_lines : Absent :=
  mkAbsent (fun _ _ _ => false) spec_clear_line spec_clear_line.

(** Modelled from the spec: [_attacked], which the source calls and never
    defines.  The square is "attacked by the opponent": some piece of the
    side not to move attacks it, by the attack geometry of [_attacks]. *)
Definition spec_attacked (s : VideoChess) (r c : Z) : bool :=
  match
    (let* poss := _all_enemy_positions s (current_player s) in
     Loop.anyM (fun pos => _attacks spec_lines s pos (r, c)) poss)
  with
  | Ok b => b
  | Err _ => false
  end.

Definition spec_absent : Absent :=
  mkAbsent spec_attacked spec_clear_line spec_clear_line.

(** ** Well-formed and reachable states *)

Definition wf_board (b : Board) : Prop :=
  List.length b = 8%nat /\ Forall (fun row => List.length row = 8%nat) b.

(** The board is 8x8 and the en passant target, if any, is a square. *)
Definition wf_state (s : VideoChess) : Prop :=
  wf_board (board s) /\
  forall t, en_passant s = Some t -> _is_valid (fst t) (snd t) = true.

(** The states the game loop can be in: the constructor's state, and any
    state obtained by applying a move of the legal-move list. *)
Inductive reachable (ext : Absent) : VideoChess -> Prop :=
| reach_init : reachable ext init
| reach_step s ms m s' :
    reachable ext s ->
    get_legal_moves ext s = Ok ms -> In m ms ->
    _apply_move ext s m = Ok s' ->
    reachable ext s'.

(** ** Vocabulary of the properties *)

Definition piece_at (b : Board) (sq : Square) : option Piece :=
  match get b (fst sq) (snd sq) with Ok x => x | Err _ => None end.

Definition occupied (b : Board) (sq : Square) : bool :=
  match piece_at b sq with Some _ => true | None => false end.

Definition moved_kind (s : VideoChess) (m : Move) : option Kind :=
  option_map pkind (piece_at (board s) (m_start m)).

Definition is_kind (k : Kind) (s : VideoChess) (m : Move) : bool :=
  match moved_kind s m with Some k' => kind_eqb k k' | None => false end.

(** A capture: the destination is occupied, or the move is en passant. *)
Definition is_capture (s : VideoChess) (m : Move) : bool :=
  occupied (board s) (m_end m) || m_en_passant m.

Definition is_castle (m : Move) : bool :=
  match m_castle m with Some _ => true | None => false end.

(** The square the applier empties besides the origin: the pawn taken by an
    en passant capture stands on the origin's row and the destination's
    column. *)
Definition taken_square (m : Move) : Square :=
  (fst (m_start m), snd (m_end m)).

(** The move removes whatever stands on [sq]. *)
Definition captures_on (m : Move) (sq : Square) : Prop :=
  m_end m = sq \/ (m_en_passant m = true /\ taken_square m = sq).

(** The piece that lands on the destination: a pawn reaching row 0 or 7
    becomes the mover's queen. *)
Definition landing_piece (s : VideoChess) (m : Move) (p : Piece) : Piece :=
  if kind_eqb (pkind p) Pawn
     && ((fst (m_end m) =? 0) || (fst (m_end m) =? 7))
  then mkPiece (current_player s) Queen else p.

(** What the applier calls [captured]. *)
Definition captured_piece (s : VideoChess) (m : Move) : option Piece :=
  if m_en_passant m then piece_at (board s) (taken_square m)
  else piece_at (board s) (m_end m).

Definition rook_home (m : Move) (sd : Side) : Square :=
  (fst (m_start m), match sd with KSide => 7 | QSide => 0 end).

Definition rook_post (m : Move) (sd : Side) : Square :=
  (fst (m_start m), match sd with KSide => 5 | QSide => 3 end).

(** The squares a move may change: origin, destination, the square of the
    pawn taken en passant, and the rook's two squares when castling. *)
Definition touched (m : Move) (q : Square) : Prop :=
  q = m_start m \/ q = m_end m \/
  (m_en_passant m = true /\ q = taken_square m) \/
  (exists sd, m_castle m = Some sd /\ (q = rook_home m sd \/ q = rook_post m sd)).

Definition pawn_dir (c : Color) : Z :=
  match c with White => -1 | Black => 1 end.

Definition pawn_home (c : Color) : Z :=
  match c with White => 6 | Black => 1 end.

(** The geometry of a move generated for a piece of kind [k]. *)
Definition move_shape (s : VideoChess) (k : Kind) (m : Move) : Prop :=
  let '(r, c) := m_start m in
  let '(r', c') := m_end m in
  let d := pawn_dir (current_player s) in
  match m_castle m with
  | Some sd =>
      k = King /\ m_en_passant m = false /\ r' = r /\
      c' = match sd with KSide => 6 | QSide => 2 end /\
      check s = false /\
      right_of (rights_of (castling s) (current_player s)) sd = true
  | None =>
      if m_en_passant m then
        k = Pawn /\ en_passant s = Some (r', c') /\
        r' = r + d /\ Z.abs (c' - c) = 1
      else
        _is_valid r' c' = true /\
        match k with
        | Pawn =>
            (c' = c /\
             (r' = r + d \/
              (r' = r + 2 * d /\ r = pawn_home (current_player s)))) \/
            (r' = r + d /\ Z.abs (c' - c) = 1)
        | King => Z.abs (r' - r) <= 1 /\ Z.abs (c' - c) <= 1
        | _ => True
        end
  end.

(** A pawn advancing two rows. *)
Definition two_square_advance (s : VideoChess) (m : Move) : bool :=
  is_kind Pawn s m && (Z.abs (fst (m_start m) - fst (m_end m)) =? 2).

(** The square between origin and destination of a two-square advance. *)
Definition skipped (m : Move) : Square :=
  ((fst (m_start m) + fst (m_end m)) / 2, snd (m_start m)).

Definition file_letter (c : Z) : string :=
  match c with
  | 0 => "a" | 1 => "b" | 2 => "c" | 3 => "d"
  | 4 => "e" | 5 => "f" | 6 => "g" | 7 => "h"
  | _ => EmptyString
  end%string.

Definition rank_digit (r : Z) : string :=
  match r with
  | 0 => "8" | 1 => "7" | 2 => "6" | 3 => "5"
  | 4 => "4" | 5 => "3" | 6 => "2" | 7 => "1"
  | _ => EmptyString
  end%string.

Definition square_name (sq : Square) : string :=
  (file_letter (snd sq) ++ rank_digit (fst sq))%string.

Definition piece_letter (k : Kind) : string :=
  match k with Pawn => EmptyString | _ => letter k end.

(** The encoding as the specification words it: [O-O] and [O-O-O] for
    castling; otherwise the piece letter (none for a pawn), a capture marker
    when the destination is occupied or the move is en passant, and the
    destination square. *)
Definition san_by_spec (s : VideoChess) (m : Move) : string :=
  match m_castle m with
  | Some KSide => "O-O"
  | Some QSide => "O-O-O"
  | None =>
      match moved_kind s m with
      | Some k =>
          piece_letter k ++ (if is_capture s m then "x" else "")
          ++ square_name (m_end m)
      | None => EmptyString
      end
  end%string.

(** The encoding the source produces for a move of a piece standing on the
    board: the origin file always follows the piece letter. *)
Definition san_by_code (s : VideoChess) (m : Move) (k : Kind) : string :=
  (piece_letter k ++ file_letter (snd (m_start m))
   ++ (if occupied (board s) (m_end m) then "x" else "")
   ++ square_name (m_end m))%string.

Definition piece_eqb (a b : Piece) : bool :=
  color_eqb (pcolor a) (pcolor b) && kind_eqb (pkind a) (pkind b).

Definition holds (b : Board) (q : Square) (p : Piece) : bool :=
  match piece_at b q with Some x => piece_eqb x p | None => false end.

(** The only king of colour [col] stands on [k]. *)
Definition sole_king (b : Board) (col : Color) (k : Square) : Prop :=
  _is_valid (fst k) (snd k) = true /\
  piece_at b k = Some (mkPiece col King) /\
  forall q, _is_valid (fst q) (snd q) = true ->
            piece_at b q = Some (mkPiece col King) -> q = k.

Definition sole_king_b (b : Board) (col : Color) (k : Square) : bool :=
  _is_valid (fst k) (snd k) && holds b k (mkPiece col King)
  && forallb (fun q => implb (holds b q (mkPiece col King)) (sq_eqb q k))
             squares.

(** What the specification asks of the absent [_clear_straight] along a
    row of the board: the ray is clear when every square strictly between
    the two squares is empty. *)
Definition row_rays_clear (ext : Absent) : Prop :=
  forall (s : VideoChess) (r c1 c2 : Z),
    wf_board (board s) ->
    _is_valid r c1 = true -> _is_valid r c2 = true ->
    (forall c, Z.min c1 c2 < c < Z.max c1 c2 ->
               piece_at (board s) (r, c) = None) ->
    _clear_straight ext s r c1 r c2 = true.

(** Whether the loop of [_clear_path] meets its target while staying on
    the board, whatever the board holds. *)
Fixpoint steps_in (fuel : nat) (dr dc r c r2 c2 : Z) : bool :=
  match fuel with
  | O => false
  | S fuel' =>
      sq_eqb (r, c) (r2, c2)
      || (_is_valid r c && steps_in fuel' dr dc (r + dr) (c + dc) r2 c2)
  end.

(** Whether a walk from [(r, c)] leaves the index range of an 8x8 board
    (from -8 to 7 in both coordinates) within [fuel] steps. *)
Definition indexable (r c : Z) : bool :=
  (-8 <=? r) && (r <? 8) && (-8 <=? c) && (c <? 8).

Fixpoint leaves (fuel : nat) (dr dc r c : Z) : bool :=
  match fuel with
  | O => false
  | S fuel' => negb (indexable r c) || leaves fuel' dr dc (r + dr) (c + dc)
  end.

(** The same for the squares of the board, as [_slide] walks them. *)
Fixpoint walks_off (fuel : nat) (dr dc r c : Z) : bool :=
  match fuel with
  | O => false
  | S fuel' => negb (_is_valid r c) || walks_off fuel' dr dc (r + dr) (c + dc)
  end.

Definition unit_steps : list (Z * Z) :=
  [(-1, -1); (-1, 0); (-1, 1); (0, -1); (0, 1); (1, -1); (1, 0); (1, 1)].

Definition range16 : list Z :=
  [-8; -7; -6; -5; -4; -3; -2; -1; 0; 1; 2; 3; 4; 5; 6; 7].

Definition every_walk_leaves : bool :=
  forallb
    (fun d =>
       forallb
         (fun r => forallb (fun c => leaves 20 (fst d) (snd d) r c) range16)
         range16)
    unit_steps.

Definition every_slide_walks_off : bool :=
  forallb
    (fun d =>
       forallb
         (fun q => walks_off 9 (fst d) (snd d) (fst q + fst d) (snd q + snd d))
         squares)
    unit_steps.

Definition unit_step (a b : Z) : Z := (b - a) / Z.max 1 (Z.abs (b - a)).

Definition aligned (src tgt : Square) : bool :=
  let dr := fst tgt - fst src in
  let dc := snd tgt - snd src in
  (dr ^ 2 =? dc ^ 2) || (dr =? 0) || (dc =? 0).

Definition aligned_paths_stay_in : bool :=
  forallb
    (fun src =>
       forallb
         (fun tgt =>
            implb (aligned src tgt)
              (let dr := unit_step (fst src) (fst tgt) in
               let dc := unit_step (snd src) (snd tgt) in
               steps_in 20 dr dc (fst src + dr) (snd src + dc)
                        (fst tgt) (snd tgt)))
         squares)
    squares.

(** White king e1, black rook d1, black king e8; White to move. *)
Definition rook_check_state : VideoChess :=
  let empty := repeat (@None Piece) 8 in
  let bk := Some (mkPiece Black King) in
  let br := Some (mkPiece Black Rook) in
  let wk := Some (mkPiece White King) in
  {| board :=
       [ [None; None; None; None; bk; None; None; None];
         empty; empty; empty; empty; empty; empty;
         [None; None; None; br; wk; None; None; None] ];
     current_player := White;
     castling := mkCastling (mkRights false false) (mkRights false false);
     en_passant := None;
     move_number := 40;
     halfmove := 3;
     history := [];
     check := true |}.

(** The twenty moves of the starting position, in the order the double
    loop meets them: two per pawn, then two per knight. *)
Definition init_moves : list Move :=
  flat_map (fun c => [_create_move 6 c 5 c; _create_move 6 c 4 c]) range8
  ++ [ _create_move 7 1 5 0; _create_move 7 1 5 2;
       _create_move 7 6 5 5; _create_move 7 6 5 7 ].

Definition pawn_e2_e4 : Move := _create_move 6 4 4 4.

(** ** Three short games *)

(** 1.h4 g5 2.hxg5 h6 3.gxh6 Nf6 4.h7 Rg8: White's pawn on h7 can step to
    the empty square h8. *)
Definition game_promotion : list Move :=
  [ _create_move 6 7 4 7; _create_move 1 6 3 6;
    _create_move 4 7 3 6; _create_move 1 7 2 7;
    _create_move 3 6 2 7; _create_move 0 6 2 5;
    _create_move 2 7 1 7; _create_move 0 7 0 6 ].

Definition promote_h8 : Move := _create_move 1 7 0 7.

(** 1.Nf3 Nf6 2.Nd4 Ng8 3.Nb5 Nf6: White's knights on b5 and b1 both reach
    a3 and c3. *)
Definition game_knights : list Move :=
  [ _create_move 7 6 5 5; _create_move 0 6 2 5;
    _create_move 5 5 4 3; _create_move 2 5 0 6;
    _create_move 4 3 3 1; _create_move 0 6 2 5 ].

Definition knight_b1_a3 : Move := _create_move 7 1 5 0.
Definition knight_b5_a3 : Move := _create_move 3 1 5 0.

(** 1.Nf3 Nf6 2.g3 Ng8 3.Bg2 Nf6: White's king and king's rook have not
    moved, f1 and g1 are empty, and nothing attacks e1, f1 or g1. *)
Definition game_castle : list Move :=
  [ _create_move 7 6 5 5; _create_move 0 6 2 5;
    _create_move 6 6 5 6; _create_move 2 5 0 6;
    _create_move 7 5 6 6; _create_move 0 6 2 5 ].

(** The state a game leads to from the constructor's state. *)
Definition position (ext : Absent) (game : list Move) : VideoChess :=
  match play_moves ext init game with Ok s => s | Err _ => init end.

Definition castle_kingside : Move := mkMove (7, 4) (7, 6) false (Some KSide).

Definition knight_b1_c3 : Move := _create_move 7 1 5 2.

(** ** Further methods and vocabulary *)

(** [_to_algebraic]: the name of a square, or [None] for no square. *)
Definition _to_algebraic (pos : option Square) : result (option string) :=
  match pos with
  | Some (r, c) =>
      let* file := chr (97 + c) in
      Ok (Some (file ++ str (8 - r))%string)
  | None => Ok None
  end.

(** The square holds a piece of the side to move. *)
Definition own_at (s : VideoChess) (q : Square) : bool :=
  is_color (current_player s) (piece_at (board s) q).

(** The square holds a piece of the side not to move. *)
Definition enemy_at (s : VideoChess) (q : Square) : bool :=
  is_color (opposite (current_player s)) (piece_at (board s) q).

Definition empty_at (b : Board) (q : Square) : bool := negb (occupied b q).

(** The square [k] unit steps [(dr, dc)] away from [(r, c)]. *)
Definition along (r c dr dc k : Z) : Square := (r + k * dr, c + k * dc).

(** 1.e4 a6 2.e5 d5: Black's d-pawn has just passed d6 next to White's
    pawn on e5. *)
Definition game_en_passant : list Move :=
  [ _create_move 6 4 4 4; _create_move 1 0 2 0;
    _create_move 4 4 3 4; _create_move 1 3 3 3 ].

Definition capture_e5_d6 : Move := mkMove (3, 4) (2, 3) true None.

(** 1.e4 e5: White's king can step to e2. *)
Definition game_open : list Move :=
  [ _create_move 6 4 4 4; _create_move 1 4 3 4 ].

Definition king_e1_e2 : Move := _create_move 7 4 6 4.
Definition pawn_e7_e5 : Move := _create_move 1 4 3 4.

(** 1.h4 a6: White's rook can go to h3. *)
Definition game_rook : list Move :=
  [ _create_move 6 7 4 7; _create_move 1 0 2 0 ].

Definition rook_h1_h3 : Move := _create_move 7 7 5 7.

(** * Properties *)

(** ** The error monad and the loops *)

Lemma bind_ok {A B} (m : result A) (k : A -> result B) (y : B) :
  bind m k = Ok y -> exists x, m = Ok x /\ k x = Ok y.
Proof. destruct m as [x|e]; simpl; [eauto | discriminate]. Qed.

Lemma Ok_inj {A} (a b : A) : Ok a = Ok b -> a = b.
Proof. intros H. injection H. auto. Qed.

Tactic Notation "inv_bind" hyp(H) "as" ident(x) ident(E) :=
  apply bind_ok in H; destruct H as (x & E & H).

Ltac inv_ok :=
  repeat match goal with
         | H : Ok _ = Ok _ |- _ => injection H as H; try subst
         | H : Err _ = Ok _ |- _ => discriminate H
         | H : Ok _ = Err _ |- _ => discriminate H
         end.

Lemma filterM_In {A} (p : A -> result bool) (l l' : list A) (x : A) :
  Loop.filterM p l = Ok l' -> In x l' -> In x l /\ p x = Ok true.
Proof.
  revert l'. induction l as [|a l IH]; simpl; intros l' H Hin.
  - inv_ok. destruct Hin.
  - inv_bind H as b Eb. inv_bind H as ys Eys. inv_ok.
    destruct b.
    + destruct Hin as [->|Hin]; [auto|].
      destruct (IH _ Eys Hin); auto.
    + destruct (IH _ Eys Hin); auto.
Qed.

Lemma concatM_In {A B} (f : A -> result (list B)) (l : list A) (l' : list B) y :
  Loop.concatM f l = Ok l' -> In y l' ->
  exists x ys, In x l /\ f x = Ok ys /\ In y ys.
Proof.
  revert l'. induction l as [|a l IH]; simpl; intros l' H Hin.
  - inv_ok. destruct Hin.
  - inv_bind H as z Ez. inv_bind H as zs Ezs. inv_ok.
    apply in_app_or in Hin as [Hin|Hin].
    + exists a, z; auto.
    + destruct (IH _ Ezs Hin) as (x' & ys & ? & ? & ?).
      exists x', ys; auto.
Qed.

Lemma anyM_false {A} (p : A -> result bool) (l : list A) :
  Loop.anyM p l = Ok false -> forall x, In x l -> p x = Ok false.
Proof.
  induction l as [|a l IH]; simpl; intros H x Hin; [destruct Hin|].
  inv_bind H as b Eb. destruct b; [discriminate|].
  destruct Hin as [->|Hin]; auto.
Qed.

Lemma anyM_true {A} (p : A -> result bool) (l : list A) (x : A) :
  (forall y, In y l -> exists b, p y = Ok b) ->
  In x l -> p x = Ok true -> Loop.anyM p l = Ok true.
Proof.
  induction l as [|a l IH]; simpl; intros Hall Hin Hx; [destruct Hin|].
  destruct (Hall a (or_introl eq_refl)) as [b Hb]. rewrite Hb. simpl.
  destruct b; [reflexivity|].
  destruct Hin as [->|Hin]; [congruence|].
  apply IH; auto.
Qed.

Lemma findM_pure {A} (p : A -> result bool) (q : A -> bool) (l : list A) :
  (forall x, In x l -> p x = Ok (q x)) ->
  Loop.findM p l = Ok (List.find q l).
Proof.
  induction l as [|a l IH]; simpl; intros H; [reflexivity|].
  rewrite (H a (or_introl eq_refl)). simpl.
  destruct (q a); [reflexivity|]. apply IH; auto.
Qed.

Lemma filterM_pure {A} (p : A -> result bool) (q : A -> bool) (l : list A) :
  (forall x, In x l -> p x = Ok (q x)) ->
  Loop.filterM p l = Ok (List.filter q l).
Proof.
  induction l as [|a l IH]; simpl; intros H; [reflexivity|].
  rewrite (H a (or_introl eq_refl)). simpl.
  rewrite IH by auto. simpl. destruct (q a); reflexivity.
Qed.

Lemma mapM_ok {A B} (f : A -> result B) (l : list A) :
  (forall x, In x l -> exists y, f x = Ok y) ->
  exists ys, Loop.mapM f l = Ok ys.
Proof.
  induction l as [|a l IH]; simpl; intros H; [eauto|].
  destruct (H a (or_introl eq_refl)) as [y ->]. simpl.
  destruct IH as [ys ->]; [auto|]. simpl. eauto.
Qed.

(** ** Reading and writing an 8x8 board *)

Lemma valid_bounds r c :
  _is_valid r c = true <-> (0 <= r < 8 /\ 0 <= c < 8).
Proof. unfold _is_valid. rewrite !andb_true_iff. lia. Qed.

Lemma sq_eqb_spec (a b : Square) : sq_eqb a b = true <-> a = b.
Proof.
  destruct a as [a1 a2], b as [b1 b2]. unfold sq_eqb. simpl.
  rewrite andb_true_iff, !Z.eqb_eq. split; [intros []; congruence|].
  intros H. injection H. auto.
Qed.

Lemma sq_eqb_refl (a : Square) : sq_eqb a a = true.
Proof. apply sq_eqb_spec. reflexivity. Qed.

Lemma sq_eqb_neq (a b : Square) : a <> b -> sq_eqb a b = false.
Proof.
  intros H. destruct (sq_eqb a b) eqn:E; [|reflexivity].
  apply sq_eqb_spec in E. contradiction.
Qed.

Lemma py_norm_valid (i : Z) : 0 <= i < 8 -> py_norm 8 i = Ok (Z.to_nat i).
Proof.
  intros H. unfold py_norm.
  replace (i <? 0) with false by lia.
  replace ((0 <=? i) && (i <? 8)) with true by lia. reflexivity.
Qed.

Lemma py_index_valid {A} (l : list A) (i : Z) :
  List.length l = 8%nat -> 0 <= i < 8 ->
  exists x, l !! Z.to_nat i = Some x /\ py_index l i = Ok x.
Proof.
  intros Hl Hi. unfold py_index. rewrite Hl. simpl Z.of_nat.
  rewrite py_norm_valid by assumption. simpl.
  destruct (lookup_lt_is_Some_2 l (Z.to_nat i)) as [x Hx]; [lia|].
  exists x. rewrite Hx. auto.
Qed.

Lemma wf_board_row (b : Board) (i : nat) row :
  wf_board b -> b !! i = Some row -> List.length row = 8%nat.
Proof.
  intros [_ Hrows] Hi. rewrite Forall_lookup in Hrows. eauto.
Qed.

Lemma get_valid (b : Board) (r c : Z) :
  wf_board b -> _is_valid r c = true ->
  get b r c = Ok (piece_at b (r, c)).
Proof.
  intros Hwf Hv. apply valid_bounds in Hv as [Hr Hc].
  unfold piece_at. simpl. unfold get.
  destruct (py_index_valid b r (proj1 Hwf) Hr) as (row & Hrow & ->). simpl.
  destruct (py_index_valid row c (wf_board_row _ _ _ Hwf Hrow) Hc)
    as (x & _ & ->).
  reflexivity.
Qed.

Lemma put_valid (b : Board) (r c : Z) (v : option Piece) :
  wf_board b -> _is_valid r c = true ->
  exists b', put b r c v = Ok b' /\ wf_board b' /\
    forall q, _is_valid (fst q) (snd q) = true ->
      piece_at b' q = if sq_eqb q (r, c) then v else piece_at b q.
Proof.
  intros Hwf Hv. apply valid_bounds in Hv as [Hr Hc].
  unfold put.
  destruct (py_index_valid b r (proj1 Hwf) Hr) as (row & Hrow & ->). simpl.
  pose proof (wf_board_row _ _ _ Hwf Hrow) as Hlen.
  unfold py_store. rewrite Hlen, (proj1 Hwf). simpl Z.of_nat.
  rewrite !py_norm_valid by assumption. simpl.
  eexists. split; [reflexivity|].
  assert (Hwf' : wf_board (<[Z.to_nat r := <[Z.to_nat c := v]> row]> b)).
  { split.
    - rewrite length_insert. apply Hwf.
    - apply Forall_insert; [apply Hwf|]. rewrite length_insert. exact Hlen. }
  split; [exact Hwf'|].
  intros [r' c'] Hq. simpl in Hq. apply valid_bounds in Hq as [Hr' Hc'].
  unfold piece_at, get. simpl fst. simpl snd.
  destruct (py_index_valid _ r' (proj1 Hwf') Hr') as (row' & Hrow' & ->).
  destruct (py_index_valid b r' (proj1 Hwf) Hr') as (row0 & Hrow0 & ->).
  simpl.
  destruct (py_index_valid row' c' (wf_board_row _ _ _ Hwf' Hrow') Hc')
    as (x' & Hx' & ->).
  destruct (py_index_valid row0 c' (wf_board_row _ _ _ Hwf Hrow0) Hc')
    as (x0 & Hx0 & ->).
  destruct (Z.eq_dec r' r) as [->|Hne].
  - rewrite list_lookup_insert_eq in Hrow' by (rewrite (proj1 Hwf); lia).
    injection Hrow' as <-. rewrite Hrow in Hrow0. injection Hrow0 as <-.
    destruct (Z.eq_dec c' c) as [->|Hnc].
    + rewrite sq_eqb_refl.
      rewrite list_lookup_insert_eq in Hx' by (rewrite Hlen; lia).
      congruence.
    + rewrite sq_eqb_neq by congruence.
      rewrite list_lookup_insert_ne in Hx' by lia. congruence.
  - rewrite sq_eqb_neq by congruence.
    rewrite list_lookup_insert_ne in Hrow' by lia. congruence.
Qed.

Lemma put_inv (b b' : Board) (r c : Z) (v : option Piece) :
  wf_board b -> _is_valid r c = true -> put b r c v = Ok b' ->
  wf_board b' /\
  forall q, _is_valid (fst q) (snd q) = true ->
    piece_at b' q = if sq_eqb q (r, c) then v else piece_at b q.
Proof.
  intros Hwf Hv Hput.
  destruct (put_valid b r c v Hwf Hv) as (b0 & E & H).
  rewrite E in Hput. injection Hput as <-. exact H.
Qed.

Lemma wf_init : wf_state init.
Proof.
  split; [|discriminate].
  split; [reflexivity|]. repeat constructor.
Qed.

(** ** What the applier does *)

Lemma get_piece_at (b : Board) (r c : Z) x :
  get b r c = Ok x -> piece_at b (r, c) = x.
Proof. intros H. unfold piece_at. simpl. rewrite H. reflexivity. Qed.

Section Applier.

Variable ext : Absent.

(** The scalar fields after a successful application. *)
Lemma apply_move_fields (s s' : VideoChess) (m : Move) :
  _apply_move ext s m = Ok s' ->
  exists p,
    piece_at (board s) (m_start m) = Some p /\
    (m_en_passant m = false -> m_castle m = None) /\
    current_player s' = opposite (current_player s) /\
    history s' = history s ++ [board s'] /\
    en_passant s' =
      (if kind_eqb (pkind (landing_piece s m p)) Pawn
          && (Z.abs (fst (m_start m) - fst (m_end m)) =? 2)
       then Some (fst (m_end m)
                  + match current_player s with White => 1 | Black => -1 end,
                  snd (m_end m))
       else None) /\
    halfmove s' =
      (if kind_eqb (pkind (landing_piece s m p)) Pawn
          || match captured_piece s m with Some _ => true | None => false end
       then 0 else halfmove s + 1).
Proof.
  unfold _apply_move, captured_piece, landing_piece, taken_square.
  destruct m as [[sr sc] [er ec] ep cs]. simpl.
  intros H.
  inv_bind H as piece Epiece. inv_bind H as cap Ecap.
  inv_bind H as special Especial. destruct special as [b1 captured].
  destruct piece as [p|]; [|discriminate].
  inv_bind H as b2 Eb2. inv_bind H as b3 Eb3. inv_bind H as chk Echk.
  injection H as <-. simpl.
  exists p. rewrite (get_piece_at _ _ _ _ Epiece).
  assert (Hsp : (ep = false -> cs = None) /\
                captured = (if ep then piece_at (board s) (sr, ec)
                            else piece_at (board s) (er, ec))).
  { destruct ep.
    - inv_bind Especial as c0 Ec0. inv_bind Especial as b0 Eb0.
      injection Especial as <- <-.
      rewrite (get_piece_at _ _ _ _ Ec0).
      split; [discriminate|reflexivity].
    - destruct cs; [discriminate|]. injection Especial as <- <-.
      rewrite (get_piece_at _ _ _ _ Ecap). auto. }
  destruct Hsp as [Hcs ->].
  repeat split; auto.
Qed.

(** The castling rights after a successful application. *)
Lemma apply_move_castling (s s' : VideoChess) (m : Move) :
  _apply_move ext s m = Ok s' ->
  exists p,
    piece_at (board s) (m_start m) = Some p /\
    castling s' =
      match pkind p with
      | King =>
          set_rights (castling s) (current_player s) (mkRights false false)
      | Rook =>
          let r0 := rights_of (castling s) (current_player s) in
          let r1 := if snd (m_start m) =? 7
                    then mkRights false (right_Q r0) else r0 in
          let r2 := if snd (m_start m) =? 0
                    then mkRights (right_K r1) false else r1 in
          set_rights (castling s) (current_player s) r2
      | _ => castling s
      end.
Proof.
  unfold _apply_move.
  destruct m as [[sr sc] [er ec] ep cs]. simpl.
  intros H.
  inv_bind H as piece Epiece. inv_bind H as cap Ecap.
  inv_bind H as special Especial. destruct special as [b1 captured].
  destruct piece as [p|]; [|discriminate].
  inv_bind H as b2 Eb2. inv_bind H as b3 Eb3. inv_bind H as chk Echk.
  apply Ok_inj in H. subst s'. simpl.
  exists p. rewrite (get_piece_at _ _ _ _ Epiece). auto.
Qed.

(** A castling right that holds after a move held before it. *)
Lemma rights_never_return (s s' : VideoChess) (m : Move) col sd :
  _apply_move ext s m = Ok s' ->
  right_of (rights_of (castling s') col) sd = true ->
  right_of (rights_of (castling s) col) sd = true.
Proof.
  intros H. destruct (apply_move_castling _ _ _ H) as (p & _ & ->).
  destruct (castling s) as [[wk wq] [bk bq]].
  destruct (pkind p), (current_player s), col, sd,
    (snd (m_start m) =? 7), (snd (m_start m) =? 0); simpl; congruence.
Qed.

(** A king move revokes both rights of the mover. *)
Lemma king_move_revokes (s s' : VideoChess) (m : Move) p sd :
  _apply_move ext s m = Ok s' ->
  piece_at (board s) (m_start m) = Some p -> pkind p = King ->
  right_of (rights_of (castling s') (current_player s)) sd = false.
Proof.
  intros H Hp Hk. destruct (apply_move_castling _ _ _ H) as (p' & Hp' & ->).
  rewrite Hp in Hp'. apply Some_inj in Hp'. subst p'. rewrite Hk.
  destruct (current_player s), sd; reflexivity.
Qed.

(** A rook leaving column 7 (column 0) revokes the mover's kingside
    (queenside) right. *)
Lemma rook_move_revokes (s s' : VideoChess) (m : Move) p sd :
  _apply_move ext s m = Ok s' ->
  piece_at (board s) (m_start m) = Some p -> pkind p = Rook ->
  snd (m_start m) = match sd with KSide => 7 | QSide => 0 end ->
  right_of (rights_of (castling s') (current_player s)) sd = false.
Proof.
  intros H Hp Hk Hc. destruct (apply_move_castling _ _ _ H) as (p' & Hp' & ->).
  rewrite Hp in Hp'. apply Some_inj in Hp'. subst p'. rewrite Hk, Hc.
  destruct (castling s) as [[wk wq] [bk bq]].
  destruct (current_player s), sd; reflexivity.
Qed.

(** The board after a successful application, square by square. *)
Lemma apply_move_board (s s' : VideoChess) (m : Move) (p : Piece) :
  wf_board (board s) ->
  _is_valid (fst (m_start m)) (snd (m_start m)) = true ->
  _is_valid (fst (m_end m)) (snd (m_end m)) = true ->
  piece_at (board s) (m_start m) = Some p ->
  _apply_move ext s m = Ok s' ->
  wf_board (board s') /\
  forall q, _is_valid (fst q) (snd q) = true ->
    piece_at (board s') q =
      if sq_eqb q (m_end m) then Some (landing_piece s m p)
      else if sq_eqb q (m_start m) then None
      else if m_en_passant m && sq_eqb q (taken_square m) then None
      else piece_at (board s) q.
Proof.
  unfold _apply_move, landing_piece, taken_square.
  destruct m as [[sr sc] [er ec] ep cs]. simpl.
  intros Hwf Hvs Hve Hp H.
  inv_bind H as piece Epiece. inv_bind H as cap Ecap.
  inv_bind H as special Especial. destruct special as [b1 captured].
  apply get_piece_at in Epiece. rewrite Hp in Epiece. subst piece.
  inv_bind H as b2 Eb2. inv_bind H as b3 Eb3. inv_bind H as chk Echk.
  injection H as <-. simpl.
  assert (Hvt : _is_valid sr ec = true).
  { apply valid_bounds in Hvs, Hve. apply valid_bounds. lia. }
  assert (H1 : wf_board b1 /\
               forall q, _is_valid (fst q) (snd q) = true ->
                 piece_at b1 q =
                   if ep && sq_eqb q (sr, ec) then None
                   else piece_at (board s) q).
  { destruct ep.
    - inv_bind Especial as c0 Ec0. inv_bind Especial as b0 Eb0.
      injection Especial as <- <-.
      apply (put_inv _ _ _ _ _ Hwf Hvt Eb0).
    - destruct cs; [discriminate|]. injection Especial as <- <-.
      split; auto. }
  destruct H1 as [Hwf1 H1].
  destruct (put_inv _ _ _ _ _ Hwf1 Hvs Eb2) as [Hwf2 H2].
  destruct (put_inv _ _ _ _ _ Hwf2 Hve Eb3) as [Hwf3 H3].
  split; [exact Hwf3|].
  intros q Hq. rewrite (H3 q Hq).
  destruct (sq_eqb q (er, ec)); [reflexivity|].
  rewrite (H2 q Hq).
  destruct (sq_eqb q (sr, sc)); [reflexivity|].
  apply (H1 q Hq).
Qed.

End Applier.

(** ** What the generator produces *)

Lemma squares_valid (q : Square) :
  In q squares -> _is_valid (fst q) (snd q) = true.
Proof.
  assert (H : forallb (fun q => _is_valid (fst q) (snd q)) squares = true)
    by reflexivity.
  rewrite forallb_forall in H. apply H.
Qed.

Lemma valid_squares (r c : Z) : _is_valid r c = true -> In (r, c) squares.
Proof.
  intros H. apply valid_bounds in H as [Hr Hc].
  assert (Hr' : In r range8) by (unfold range8; simpl; lia).
  assert (Hc' : In c range8) by (unfold range8; simpl; lia).
  unfold squares. apply in_flat_map. exists r. split; [exact Hr'|].
  apply in_map. exact Hc'.
Qed.

Section Generator.

Variable ext : Absent.

Lemma is_empty_true s r c :
  _is_empty s r c = Ok true ->
  _is_valid r c = true /\ piece_at (board s) (r, c) = None.
Proof.
  unfold _is_empty. destruct (_is_valid r c); [|discriminate].
  intros H. inv_bind H as x Ex. apply get_piece_at in Ex.
  destruct x; [discriminate|]. auto.
Qed.

Lemma is_enemy_true s r c :
  _is_enemy s r c = Ok true ->
  _is_valid r c = true /\
  exists p, piece_at (board s) (r, c) = Some p /\
            color_eqb (_color p) (current_player s) = false.
Proof.
  unfold _is_enemy. destruct (_is_valid r c); [|discriminate].
  intros H. inv_bind H as x Ex. apply get_piece_at in Ex.
  destruct x as [p|]; [|discriminate]. injection H as H.
  split; [reflexivity|]. exists p. split; [assumption|].
  destruct (color_eqb _ _); [discriminate|reflexivity].
Qed.

Lemma can_move_true s r c :
  _can_move s r c = Ok true -> _is_valid r c = true.
Proof.
  unfold _can_move. intros H. inv_bind H as e Ee. destruct e.
  - apply is_empty_true in Ee. tauto.
  - apply is_enemy_true in H. tauto.
Qed.

Lemma slide_loop_shape s row col dr dc fuel :
  forall r c l m,
    slide_loop fuel s row col dr dc r c = Ok l -> In m l ->
    exists r' c', m = _create_move row col r' c' /\ _is_valid r' c' = true.
Proof.
  induction fuel as [|fuel IH]; simpl; intros r c l m H Hin; [discriminate|].
  destruct (_is_valid r c) eqn:Hv.
  - inv_bind H as x Ex. destruct x as [p|].
    + inv_bind H as en Een. injection H as <-.
      destruct en; [|destruct Hin].
      destruct Hin as [<-|[]]. eauto.
    + inv_bind H as rest Erest. injection H as <-.
      destruct Hin as [<-|Hin]; [eauto|]. eapply IH; eauto.
  - injection H as <-. destruct Hin.
Qed.

Lemma slide_shape s row col dirs l m :
  _slide s row col dirs = Ok l -> In m l ->
  exists r' c', m = _create_move row col r' c' /\ _is_valid r' c' = true.
Proof.
  unfold _slide. intros H Hin.
  destruct (concatM_In _ _ _ _ H Hin) as ([dr dc] & ys & _ & Hys & Hm).
  eapply slide_loop_shape; eauto.
Qed.

Lemma step_moves_shape s row col deltas l m :
  step_moves s row col deltas = Ok l -> In m l ->
  exists dr dc, In (dr, dc) deltas /\
    m = _create_move row col (row + dr) (col + dc) /\
    _is_valid (row + dr) (col + dc) = true.
Proof.
  unfold step_moves. intros H Hin.
  destruct (concatM_In _ _ _ _ H Hin) as ([dr dc] & ys & Hd & Hys & Hm).
  inv_bind Hys as ok Eok. injection Hys as <-.
  destruct ok; [|destruct Hm]. destruct Hm as [<-|[]].
  exists dr, dc. repeat split; auto. eapply can_move_true; eauto.
Qed.

Lemma pawn_moves_shape s row col l m :
  _pawn_moves s row col = Ok l -> In m l ->
  m_start m = (row, col) /\ move_shape s Pawn m.
Proof.
  unfold _pawn_moves. intros H Hin.
  inv_bind H as e1 Ee1. inv_bind H as fwd Efwd. inv_bind H as caps Ecaps.
  injection H as <-.
  assert (Hd : pawn_dir (current_player s)
               = match current_player s with White => -1 | Black => 1 end)
    by reflexivity.
  apply in_app_or in Hin as [Hin|Hin].
  - destruct e1; [|injection Efwd as <-; destruct Hin].
    apply is_empty_true in Ee1 as [Hv1 _].
    destruct (row =? _) eqn:Erow.
    + inv_bind Efwd as e2 Ee2. injection Efwd as <-.
      apply Z.eqb_eq in Erow.
      assert (Hhome : row = pawn_home (current_player s)).
      { rewrite Erow. destruct (current_player s); reflexivity. }
      destruct e2.
      * apply is_empty_true in Ee2 as [Hv2 _].
        destruct Hin as [<-|[<-|[]]]; (split; [reflexivity|]);
          unfold move_shape; simpl; rewrite Hd; (split; [assumption|]);
          left; auto.
      * destruct Hin as [<-|[]]. split; [reflexivity|].
        unfold move_shape; simpl; rewrite Hd. split; [assumption|].
        left; auto.
    + injection Efwd as <-. destruct Hin as [<-|[]]. split; [reflexivity|].
      unfold move_shape; simpl; rewrite Hd. split; [assumption|].
      left; auto.
  - destruct (concatM_In _ _ _ _ Ecaps Hin) as (dc & ys & Hdc & Hys & Hm).
    inv_bind Hys as en Een. injection Hys as <-.
    assert (Habs : Z.abs (col + dc - col) = 1).
    { destruct Hdc as [<-|[<-|[]]]; lia. }
    apply in_app_or in Hm as [Hm|Hm].
    + destruct en; [|destruct Hm]. destruct Hm as [<-|[]].
      apply is_enemy_true in Een as [Hv _].
      split; [reflexivity|].
      unfold move_shape; simpl; rewrite Hd. split; [assumption|].
      right; auto.
    + destruct (en_passant s) as [t|] eqn:Et; [|destruct Hm].
      destruct (sq_eqb _ t) eqn:Eq; [|destruct Hm].
      apply sq_eqb_spec in Eq. destruct Hm as [<-|[]].
      split; [reflexivity|].
      unfold move_shape; simpl; rewrite Hd. subst t. auto.
Qed.

Lemma castle_candidate_shape s row col sd l m :
  castle_candidate ext s row col sd = Ok l -> In m l ->
  m = mkMove (row, col)
             (row, match sd with KSide => 6 | QSide => 2 end)
             false (Some sd) /\
  check s = false /\
  right_of (rights_of (castling s) (current_player s)) sd = true.
Proof.
  unfold castle_candidate. intros H Hin.
  destruct (negb (check s) && _) eqn:Hc;
    [|injection H as <-; destruct Hin].
  inv_bind H as clear Eclear.
  destruct (clear && _); injection H as <-; [|destruct Hin].
  destruct Hin as [<-|[]].
  apply andb_true_iff in Hc as [Hc1 Hc2].
  apply negb_true_iff in Hc1. auto.
Qed.

Lemma plain_shape s k row col r' c' :
  k <> Pawn -> k <> King -> _is_valid r' c' = true ->
  move_shape s k (_create_move row col r' c').
Proof.
  intros Hp Hk Hv. unfold move_shape. simpl. split; [assumption|].
  destruct k; auto; contradiction.
Qed.

Lemma piece_moves_shape s row col l m :
  _piece_moves ext s row col = Ok l -> In m l ->
  exists p, piece_at (board s) (row, col) = Some p /\
            m_start m = (row, col) /\ move_shape s (pkind p) m.
Proof.
  unfold _piece_moves. intros H Hin.
  inv_bind H as x Ex. apply get_piece_at in Ex.
  destruct x as [p|]; [|discriminate].
  exists p. split; [assumption|].
  destruct (pkind p) eqn:Ek.
  - eapply pawn_moves_shape; eauto.
  - destruct (step_moves_shape _ _ _ _ _ _ H Hin)
      as (dr & dc & _ & -> & Hv).
    split; [reflexivity|]. apply plain_shape; auto; discriminate.
  - destruct (slide_shape _ _ _ _ _ _ H Hin) as (r' & c' & -> & Hv).
    split; [reflexivity|]. apply plain_shape; auto; discriminate.
  - destruct (slide_shape _ _ _ _ _ _ H Hin) as (r' & c' & -> & Hv).
    split; [reflexivity|]. apply plain_shape; auto; discriminate.
  - unfold _queen_moves in H.
    inv_bind H as a Ea. inv_bind H as b Eb. injection H as <-.
    apply in_app_or in Hin as [Hin|Hin].
    + destruct (slide_shape _ _ _ _ _ _ Ea Hin) as (r' & c' & -> & Hv).
      split; [reflexivity|]. apply plain_shape; auto; discriminate.
    + destruct (slide_shape _ _ _ _ _ _ Eb Hin) as (r' & c' & -> & Hv).
      split; [reflexivity|]. apply plain_shape; auto; discriminate.
  - unfold _king_moves in H.
    inv_bind H as a Ea. inv_bind H as k Ek'. inv_bind H as q Eq.
    injection H as <-.
    apply in_app_or in Hin as [Hin|Hin].
    + destruct (step_moves_shape _ _ _ _ _ _ Ea Hin)
        as (dr & dc & Hd & -> & Hv).
      split; [reflexivity|]. unfold move_shape. simpl.
      split; [assumption|].
      unfold king_deltas in Hd. simpl in Hd.
      repeat (destruct Hd as [Hd|Hd]; [injection Hd as <- <-; lia|]).
      destruct Hd.
    + apply in_app_or in Hin as [Hin|Hin].
      * destruct (castle_candidate_shape _ _ _ _ _ _ Ek' Hin)
          as (-> & ? & ?).
        split; [reflexivity|]. unfold move_shape. simpl. auto 10.
      * destruct (castle_candidate_shape _ _ _ _ _ _ Eq Hin)
          as (-> & ? & ?).
        split; [reflexivity|]. unfold move_shape. simpl. auto 10.
Qed.

Lemma is_color_true col x :
  is_color col x = true -> exists p, x = Some p /\ _color p = col.
Proof.
  destruct x as [p|]; simpl; [|discriminate].
  intros H. exists p. split; [reflexivity|].
  destruct (_color p), col; simpl in H; congruence.
Qed.

(** Every generated move starts on a square of the board that holds a
    piece of the side to move, and has the geometry of that piece. *)
Lemma pseudo_legal_shape s ms m :
  pseudo_legal_moves ext s = Ok ms -> In m ms ->
  _is_valid (fst (m_start m)) (snd (m_start m)) = true /\
  exists p, piece_at (board s) (m_start m) = Some p /\
            _color p = current_player s /\
            move_shape s (pkind p) m.
Proof.
  unfold pseudo_legal_moves. intros H Hin.
  destruct (concatM_In _ _ _ _ H Hin) as ([r c] & ys & Hsq & Hys & Hm).
  inv_bind Hys as x Ex. apply get_piece_at in Ex.
  destruct (is_color (current_player s) x) eqn:Ec;
    [|injection Hys as <-; destruct Hm].
  destruct (is_color_true _ _ Ec) as (p & -> & Hcol).
  destruct (piece_moves_shape _ _ _ _ _ Hys Hm) as (p' & Hp' & Hst & Hsh).
  rewrite Hst. split; [apply (squares_valid _ Hsq)|].
  exists p'. rewrite Hp' in Ex. injection Ex as ->. auto.
Qed.

(** The legal moves are the generated moves that the filter lets
    through: applied to the state, they leave the mover out of check. *)
Lemma legal_inv s ms m :
  get_legal_moves ext s = Ok ms -> In m ms ->
  (exists l, pseudo_legal_moves ext s = Ok l /\ In m l) /\
  exists s', _apply_move ext s m = Ok s' /\
             _in_check ext s' (current_player s) = Ok false.
Proof.
  unfold get_legal_moves. intros H Hin.
  inv_bind H as l El.
  destruct (filterM_In _ _ _ _ H Hin) as [Hl Hf].
  split; [eauto|].
  inv_bind Hf as b Eb. injection Hf as Hf. apply negb_true_iff in Hf.
  subst b. unfold _leaves_check in Eb. inv_bind Eb as s' Es'. eauto.
Qed.

Lemma shape_end_valid s k m :
  wf_state s -> _is_valid (fst (m_start m)) (snd (m_start m)) = true ->
  move_shape s k m ->
  _is_valid (fst (m_end m)) (snd (m_end m)) = true.
Proof.
  intros [_ Hep] Hv. unfold move_shape.
  destruct m as [[r c] [r' c'] ep cs]. simpl in *.
  destruct cs as [sd|].
  - intros (_ & _ & -> & -> & _). apply valid_bounds in Hv.
    apply valid_bounds. destruct sd; lia.
  - destruct ep.
    + intros (_ & Ht & _). apply (Hep _ Ht).
    + tauto.
Qed.

(** The generator proposes a castling move only while the mover still
    has the right for that side. *)
Lemma castle_needs_right s l m sd :
  pseudo_legal_moves ext s = Ok l -> In m l -> m_castle m = Some sd ->
  right_of (rights_of (castling s) (current_player s)) sd = true.
Proof.
  intros Hl Hin Hc.
  destruct (pseudo_legal_shape _ _ _ Hl Hin) as (_ & p & _ & _ & Hsh).
  unfold move_shape in Hsh. destruct (m_start m), (m_end m).
  rewrite Hc in Hsh. tauto.
Qed.

(** The applier raises on every castling move, so the filter never
    returns one. *)
Lemma castle_never_legal s ms m :
  get_legal_moves ext s = Ok ms -> In m ms -> m_castle m = None.
Proof.
  intros H Hin.
  destruct (legal_inv _ _ _ H Hin) as [(l & Hl & Hml) (s' & Hs' & _)].
  destruct (pseudo_legal_shape _ _ _ Hl Hml) as (_ & p & _ & _ & Hsh).
  destruct (apply_move_fields ext _ _ _ Hs') as (_ & _ & Hc & _).
  destruct (m_castle m) as [sd|] eqn:Ec; [|reflexivity].
  apply Hc. unfold move_shape in Hsh.
  destruct (m_start m), (m_end m). rewrite Ec in Hsh. tauto.
Qed.

End Generator.

Lemma move_eqb_In (m : Move) (ms : list Move) :
  existsb (move_eqb m) ms = true -> In m ms.
Proof.
  intros H. apply existsb_exists in H as (m' & Hin & E).
  replace m with m'; [exact Hin|].
  unfold move_eqb in E. rewrite !andb_true_iff in E.
  destruct E as [[[E1 E2] E3] E4].
  apply sq_eqb_spec in E1, E2. apply Bool.eqb_prop in E3.
  destruct m as [a b e c], m' as [a' b' e' c']. simpl in *. subst.
  destruct c as [[]|], c' as [[]|]; simpl in E4; congruence.
Qed.

(** ** Scanning an 8x8 board *)

Lemma king_pos_scan (s : VideoChess) (col : Color) :
  wf_board (board s) ->
  king_pos s col =
    match List.find (fun q => is_king_of col (piece_at (board s) q)) squares with
    | Some q => Ok q
    | None => Err StopIteration
    end.
Proof.
  intros Hwf. unfold king_pos.
  rewrite (findM_pure _ (fun q => is_king_of col (piece_at (board s) q))).
  - reflexivity.
  - intros [r c] Hq. pose proof (squares_valid _ Hq) as Hv. simpl in Hv.
    rewrite (get_valid _ _ _ Hwf Hv). reflexivity.
Qed.

Lemma enemy_positions_scan (s : VideoChess) (col : Color) :
  wf_board (board s) ->
  _all_enemy_positions s col =
    Ok (List.filter (fun q => is_color (opposite col) (piece_at (board s) q))
          squares).
Proof.
  intros Hwf. unfold _all_enemy_positions.
  replace (match col with White => Black | Black => White end)
    with (opposite col) by (destruct col; reflexivity).
  apply filterM_pure.
  intros [r c] Hq. pose proof (squares_valid _ Hq) as Hv. simpl in Hv.
  rewrite (get_valid _ _ _ Hwf Hv). reflexivity.
Qed.

Lemma is_king_of_true col x :
  is_king_of col x = true -> x = Some (mkPiece col King).
Proof.
  destruct x as [[c k]|]; simpl; [|discriminate].
  destruct k, c, col; simpl; congruence.
Qed.

Lemma is_color_Some col p : _color p = col -> is_color col (Some p) = true.
Proof. simpl. intros ->. destruct col; reflexivity. Qed.

Section Legal.

Variable ext : Absent.

(** Everything known about a legal move of a well-formed state. *)
Lemma legal_facts s ms m :
  wf_state s -> get_legal_moves ext s = Ok ms -> In m ms ->
  exists p s',
    _is_valid (fst (m_start m)) (snd (m_start m)) = true /\
    _is_valid (fst (m_end m)) (snd (m_end m)) = true /\
    piece_at (board s) (m_start m) = Some p /\
    _color p = current_player s /\
    move_shape s (pkind p) m /\
    m_castle m = None /\
    _apply_move ext s m = Ok s' /\
    _in_check ext s' (current_player s) = Ok false.
Proof.
  intros Hwf H Hin.
  destruct (legal_inv _ _ _ _ H Hin) as [(l & Hl & Hml) (s' & Hs' & Hchk)].
  destruct (pseudo_legal_shape _ _ _ _ Hl Hml) as (Hv & p & Hp & Hc & Hsh).
  exists p, s'. repeat split; auto.
  - eapply shape_end_valid; eauto.
  - eapply castle_never_legal; eauto.
Qed.

Lemma two_square_target s ms m s' :
  get_legal_moves ext s = Ok ms -> In m ms ->
  _apply_move ext s m = Ok s' ->
  en_passant s' =
    if two_square_advance s m then Some (skipped m) else None.
Proof.
  intros H Hin Hs'.
  destruct (legal_inv _ _ _ _ H Hin) as [(l & Hl & Hml) _].
  destruct (pseudo_legal_shape _ _ _ _ Hl Hml) as (Hv & p & Hp & Hc & Hsh).
  destruct (apply_move_fields ext _ _ _ Hs')
    as (p' & Hp' & _ & _ & _ & Hep & _).
  rewrite Hp in Hp'. injection Hp' as <-.
  rewrite Hep. clear Hep.
  unfold two_square_advance, is_kind, moved_kind, landing_piece, skipped.
  rewrite Hp. simpl option_map. cbv iota.
  unfold move_shape in Hsh.
  destruct m as [[r c] [r' c'] ep cs]. simpl in *.
  destruct (pkind p) eqn:Ek; simpl; rewrite ?Ek; simpl; try reflexivity.

  destruct cs as [sd|]; [destruct Hsh; discriminate|].
  assert (Hd : pawn_dir (current_player s) = -1 /\ current_player s = White
               \/ pawn_dir (current_player s) = 1 /\ current_player s = Black)
    by (destruct (current_player s); auto).
  destruct (Z.abs (r - r') =? 2) eqn:E2.
  - apply Z.eqb_eq in E2.
    assert (Hr : r' = r + 2 * pawn_dir (current_player s) /\
                 r = pawn_home (current_player s) /\ c' = c).
    { destruct ep; [lia|]. destruct Hsh as (_ & [[? [?|[? ?]]]|[? ?]]);
        try lia; auto. }
    destruct Hr as (-> & Hhome & ->).
    replace ((_ =? 0) || (_ =? 7)) with false
      by (destruct Hd as [[-> Hw]|[-> Hb]]; rewrite ?Hw, ?Hb in Hhome;
          simpl in Hhome; lia).
    rewrite Ek. simpl. f_equal. f_equal.
    destruct Hd as [[Hd ->]|[Hd ->]]; simpl; rewrite ?Hd;
      [replace (r + (r + 2 * -1)) with ((r - 1) * 2) by lia
      |replace (r + (r + 2 * 1)) with ((r + 1) * 2) by lia];
      rewrite Z.div_mul by lia; lia.
  - rewrite andb_false_r. reflexivity.
Qed.

(** Applying a legal move keeps a state well formed. *)
Lemma apply_legal_wf s ms m s' :
  wf_state s -> get_legal_moves ext s = Ok ms -> In m ms ->
  _apply_move ext s m = Ok s' -> wf_state s'.
Proof.
  intros Hwf H Hin Hs'.
  destruct (legal_facts _ _ _ Hwf H Hin)
    as (p & s0 & Hvs & Hve & Hp & Hc & Hsh & Hcs & Hs0 & _).
  destruct (apply_move_board ext _ _ _ _ (proj1 Hwf) Hvs Hve Hp Hs')
    as [Hwf' _].
  split; [exact Hwf'|].
  rewrite (two_square_target _ _ _ _ H Hin Hs').
  unfold two_square_advance, is_kind, moved_kind. rewrite Hp. simpl.
  destruct (pkind p) eqn:Ek; simpl; try discriminate.
  destruct (Z.abs _ =? 2) eqn:E2; [|discriminate].
  intros t [= <-]. unfold skipped. simpl.
  apply Z.eqb_eq in E2. apply valid_bounds in Hvs, Hve.
  apply valid_bounds.
  assert (fst (m_start m) + fst (m_end m) = 2 * (fst (m_start m) - 1) \/
          fst (m_start m) + fst (m_end m) = 2 * (fst (m_start m) + 1))
    as [E|E] by lia;
    rewrite E, Z.mul_comm, Z.div_mul by lia; lia.
Qed.

Lemma reachable_wf s : reachable ext s -> wf_state s.
Proof.
  induction 1 as [|s ms m s' _ IH Hms Hin Hs'];
    [apply wf_init | eapply apply_legal_wf; eauto].
Qed.

Lemma play_moves_reachable (ms : list Move) :
  forall s s', reachable ext s -> play_moves ext s ms = Ok s' ->
               reachable ext s'.
Proof.
  induction ms as [|m ms IH]; simpl; intros s s' Hr H.
  - apply Ok_inj in H. subst. exact Hr.
  - inv_bind H as legal El.
    destruct (existsb (move_eqb m) legal) eqn:E; [|discriminate].
    inv_bind H as s1 Es1. apply (IH s1); [|exact H].
    eapply reach_step; eauto. apply move_eqb_In. exact E.
Qed.

End Legal.


(** ** The notation codec *)

Lemma chr_file (c : Z) : 0 <= c < 8 -> chr (97 + c) = Ok (file_letter c).
Proof.
  intros H.
  assert (c = 0 \/ c = 1 \/ c = 2 \/ c = 3 \/ c = 4 \/ c = 5 \/ c = 6 \/ c = 7)
    as E by lia.
  repeat (destruct E as [->|E]; [reflexivity|]). subst c. reflexivity.
Qed.

Lemma str_rank (r : Z) : 0 <= r < 8 -> str (8 - r) = rank_digit r.
Proof.
  intros H.
  assert (r = 0 \/ r = 1 \/ r = 2 \/ r = 3 \/ r = 4 \/ r = 5 \/ r = 6 \/ r = 7)
    as E by lia.
  repeat (destruct E as [->|E]; [reflexivity|]). subst r. reflexivity.
Qed.

(** The encoding of a move between two squares of the board, from an
    occupied square. *)
Lemma to_san_valid (s : VideoChess) (m : Move) (p : Piece) :
  wf_board (board s) ->
  _is_valid (fst (m_start m)) (snd (m_start m)) = true ->
  _is_valid (fst (m_end m)) (snd (m_end m)) = true ->
  piece_at (board s) (m_start m) = Some p ->
  _to_san s m = Ok (san_by_code s m (pkind p)).
Proof.
  intros Hwf Hvs Hve Hp. unfold _to_san, san_by_code, square_name, occupied.
  destruct m as [[sr sc] [er ec] ep cs]. simpl in *.
  rewrite (get_valid _ _ _ Hwf Hvs), Hp. simpl.
  rewrite (get_valid _ _ _ Hwf Hve).
  apply valid_bounds in Hvs, Hve.
  rewrite (chr_file sc), (chr_file ec), (str_rank er) by lia. simpl.
  replace (if kind_eqb (pkind p) Pawn then EmptyString else letter (pkind p))
    with (piece_letter (pkind p)) by (destruct (pkind p); reflexivity).
  destruct (piece_at (board s) (er, ec)); reflexivity.
Qed.

Lemma parse_san_none (s : VideoChess) (t : string) (ms : list Move) :
  (forall m, In m ms -> exists u, _to_san s m = Ok u) ->
  (forall m, In m ms -> _to_san s m <> Ok t) ->
  _parse_san s t ms = Ok None.
Proof.
  induction ms as [|a ms IH]; simpl; intros Hall Hno; [reflexivity|].
  destruct (Hall a (or_introl eq_refl)) as [u Hu]. rewrite Hu. simpl.
  destruct (String.eqb u t) eqn:E.
  - apply String.eqb_eq in E. subst u. destruct (Hno a); auto.
  - apply IH; auto.
Qed.

Lemma parse_san_first (s : VideoChess) (t : string) (l1 l2 : list Move) m :
  (forall m0, In m0 l1 -> exists u, _to_san s m0 = Ok u) ->
  (forall m0, In m0 l1 -> _to_san s m0 <> Ok t) ->
  _to_san s m = Ok t ->
  _parse_san s t (l1 ++ m :: l2) = Ok (Some m).
Proof.
  induction l1 as [|a l1 IH]; simpl; intros Hall Hno Hm.
  - rewrite Hm. simpl. rewrite String.eqb_refl. reflexivity.
  - destruct (Hall a (or_introl eq_refl)) as [u Hu]. rewrite Hu. simpl.
    destruct (String.eqb u t) eqn:E.
    + apply String.eqb_eq in E. subst u. destruct (Hno a); auto.
    + apply IH; auto.
Qed.

(** The first element with a given encoding. *)
Lemma first_match (s : VideoChess) (t : string) (ms : list Move) m :
  In m ms -> _to_san s m = Ok t ->
  exists l1 m' l2,
    ms = l1 ++ m' :: l2 /\ _to_san s m' = Ok t /\
    forall m0, In m0 l1 -> _to_san s m0 <> Ok t.
Proof.
  induction ms as [|a ms IH]; intros Hin Hm; [destruct Hin|].
  assert (D : _to_san s a = Ok t \/ _to_san s a <> Ok t).
  { destruct (_to_san s a) as [u|e]; [|right; discriminate].
    destruct (String.eqb u t) eqn:E.
    - apply String.eqb_eq in E. subst. auto.
    - right. intros H. apply Ok_inj in H. subst.
      rewrite String.eqb_refl in E. discriminate. }
  destruct D as [D|D].
  - exists [], a, ms. simpl.
    split; [reflexivity|]. split; [exact D|]. intros ? [].
  - destruct Hin as [->|Hin]; [contradiction|].
    destruct (IH Hin Hm) as (l1 & m' & l2 & -> & Hm' & Hno).
    exists (a :: l1), m', l2. simpl.
    split; [reflexivity|]. split; [exact Hm'|].
    intros m0 [<-|H0]; auto.
Qed.

(** ** Check along a rank *)

Lemma loop_total (b : Board) (dr dc r2 c2 : Z) (fuel : nat) :
  wf_board b ->
  forall r c, steps_in fuel dr dc r c r2 c2 = true ->
              exists x, clear_path_loop fuel b dr dc r c r2 c2 = Ok x.
Proof.
  intros Hwf. induction fuel as [|fuel IH]; simpl; intros r c H;
    [discriminate|].
  destruct (sq_eqb (r, c) (r2, c2)); [eauto|]. simpl in H.
  apply andb_true_iff in H as [Hv H].
  rewrite (get_valid _ _ _ Hwf Hv). simpl.
  destruct (piece_at b (r, c)); [eauto|]. apply IH. exact H.
Qed.

Lemma aligned_paths_stay_in_true : aligned_paths_stay_in = true.
Proof. vm_compute. reflexivity. Qed.

Lemma clear_path_total (b : Board) (sr sc tr tc : Z) :
  wf_board b -> _is_valid sr sc = true -> _is_valid tr tc = true ->
  aligned (sr, sc) (tr, tc) = true ->
  exists x, _clear_path b sr sc tr tc = Ok x.
Proof.
  intros Hwf Hs Ht Ha.
  pose proof aligned_paths_stay_in_true as H. unfold aligned_paths_stay_in in H.
  rewrite forallb_forall in H.
  specialize (H _ (valid_squares _ _ Hs)). rewrite forallb_forall in H.
  specialize (H _ (valid_squares _ _ Ht)). rewrite Ha in H. simpl in H.
  unfold _clear_path. apply loop_total; assumption.
Qed.

Lemma attacks_total (ext : Absent) (s : VideoChess) (src tgt : Square) p :
  wf_board (board s) ->
  _is_valid (fst src) (snd src) = true ->
  _is_valid (fst tgt) (snd tgt) = true ->
  piece_at (board s) src = Some p ->
  exists x, _attacks ext s src tgt = Ok x.
Proof.
  intros Hwf Hs Ht Hp. destruct src as [sr sc], tgt as [tr tc]. simpl in *.
  unfold _attacks. rewrite (get_valid _ _ _ Hwf Hs), Hp. simpl.
  destruct (pkind p); eauto.
  destruct ((_ =? _) || _ || _) eqn:Ha; [|eauto].
  apply clear_path_total; auto.
Qed.

Lemma king_pos_sole (s : VideoChess) (col : Color) (k : Square) :
  wf_board (board s) -> sole_king (board s) col k -> king_pos s col = Ok k.
Proof.
  intros Hwf (Hv & Hk & Huniq). rewrite (king_pos_scan _ _ Hwf).
  destruct (List.find _ squares) as [q|] eqn:Ef.
  - apply find_some in Ef as [Hq Ef]. apply is_king_of_true in Ef.
    rewrite (Huniq q (squares_valid _ Hq) Ef). reflexivity.
  - exfalso. pose proof (find_none _ _ Ef k) as H. cbv beta in H.
    rewrite Hk in H. destruct k as [r c].
    specialize (H (valid_squares _ _ Hv)).
    destruct col; discriminate.
Qed.

Lemma king_pos_none (s : VideoChess) (col : Color) :
  wf_board (board s) ->
  (forall q, _is_valid (fst q) (snd q) = true ->
             piece_at (board s) q <> Some (mkPiece col King)) ->
  king_pos s col = Err StopIteration.
Proof.
  intros Hwf Hno. rewrite (king_pos_scan _ _ Hwf).
  destruct (List.find _ squares) as [q|] eqn:Ef; [|reflexivity].
  apply find_some in Ef as [Hq Ef]. apply is_king_of_true in Ef.
  destruct (Hno q (squares_valid _ Hq) Ef).
Qed.

(** An enemy rook on the king's rank with nothing in between gives
    check. *)
Lemma rook_on_rank_checks (ext : Absent) (s : VideoChess) col r c c' :
  row_rays_clear ext -> wf_board (board s) ->
  sole_king (board s) col (r, c) ->
  _is_valid r c' = true ->
  piece_at (board s) (r, c') = Some (mkPiece (opposite col) Rook) ->
  (forall x, Z.min c' c < x < Z.max c' c -> piece_at (board s) (r, x) = None) ->
  _in_check ext s col = Ok true.
Proof.
  intros Hext Hwf Hking Hv Hrook Hclear.
  unfold _in_check. rewrite (king_pos_sole _ _ _ Hwf Hking). cbn [bind].
  rewrite (enemy_positions_scan _ _ Hwf). cbn [bind].
  destruct Hking as (Hvk & _ & _). simpl in Hvk.
  apply (anyM_true _ _ (r, c')).
  - intros y Hy. apply filter_In in Hy as [Hy Hc].
    destruct (piece_at (board s) y) as [p|] eqn:Hp; [|discriminate].
    apply (attacks_total ext s y (r, c) p Hwf (squares_valid _ Hy) Hvk Hp).
  - apply filter_In. split; [apply valid_squares; exact Hv|].
    rewrite Hrook. destruct col; reflexivity.
  - unfold _attacks. rewrite (get_valid _ _ _ Hwf Hv), Hrook. simpl.
    rewrite Z.sub_diag. simpl.
    rewrite (Hext s r c' c Hwf Hv Hvk Hclear). reflexivity.
Qed.

Lemma piece_eqb_true (a b : Piece) : piece_eqb a b = true -> a = b.
Proof.
  destruct a as [[] []], b as [[] []]; cbv; intros H;
    first [reflexivity | discriminate H].
Qed.

Lemma piece_eqb_refl (a : Piece) : piece_eqb a a = true.
Proof. destruct a as [[] []]; reflexivity. Qed.

Lemma sole_king_b_sound (b : Board) (col : Color) (k : Square) :
  sole_king_b b col k = true -> sole_king b col k.
Proof.
  unfold sole_king_b, sole_king, holds. rewrite !andb_true_iff.
  intros [[Hv Hk] Hall]. split; [exact Hv|]. split.
  - destruct (piece_at b k) as [x|]; [|discriminate].
    apply piece_eqb_true in Hk. congruence.
  - intros q Hq Hp. rewrite forallb_forall in Hall.
    destruct q as [qr qc]. simpl in Hq.
    specialize (Hall _ (valid_squares qr qc Hq)). cbv beta in Hall.
    rewrite Hp, piece_eqb_refl in Hall. apply sq_eqb_spec. exact Hall.
Qed.

(** The rays modelled from the specification are clear along a row whose
    squares in between are empty. *)
Lemma spec_row_rays_clear : row_rays_clear spec_absent.
Proof.
  intros s r c1 c2 Hwf H1 H2 Hclear. simpl.
  unfold spec_clear_line. apply forallb_forall. intros q Hq.
  unfold strictly_between in Hq. apply in_map_iff in Hq as (k & <- & Hk).
  apply in_seq in Hk. unfold toward.
  rewrite Z.sub_diag in *. simpl Z.sgn. simpl Z.abs in Hk.
  rewrite Z.mul_0_r, Z.add_0_r.
  apply valid_bounds in H1, H2.
  assert (Hb : Z.min c1 c2 < c1 + Z.of_nat k * Z.sgn (c2 - c1) < Z.max c1 c2).
  { destruct (Z.lt_trichotomy c1 c2) as [Hl|[He|Hg]].
    - rewrite Z.sgn_pos by lia. lia.
    - subst. rewrite Z.sub_diag in Hk. simpl in Hk. lia.
    - rewrite Z.sgn_neg by lia. lia. }
  unfold vacant. simpl fst. simpl snd.
  rewrite (get_valid _ _ _ Hwf) by (apply valid_bounds; lia).
  rewrite (Hclear _ Hb). reflexivity.
Qed.

(** ** The loop bounds of the model are never reached *)

Lemma get_err (b : Board) (r c : Z) (e : exn) :
  get b r c = Err e -> e = IndexError.
Proof.
  unfold get, py_index, py_norm. intros H.
  repeat match type of H with
         | context [if ?t then _ else _] => destruct t; simpl in H
         | context [match ?t with Some _ => _ | None => _ end] =>
             destruct t; simpl in H
         end; congruence.
Qed.

Lemma py_norm_range (n i : Z) (j : nat) :
  0 <= n -> py_norm n i = Ok j -> - n <= i < n.
Proof.
  unfold py_norm. intros Hn H.
  destruct (i <? 0) eqn:Ei;
    destruct ((0 <=? _) && _) eqn:E in H; try discriminate; lia.
Qed.

Lemma get_indexable (b : Board) (r c : Z) x :
  wf_board b -> get b r c = Ok x -> indexable r c = true.
Proof.
  intros [Hlen Hrows] H. unfold get, py_index in H.
  inv_bind H as row Erow. inv_bind Erow as i Ei.
  inv_bind H as j Ej.
  destruct (b !! i) as [row'|] eqn:Hi; [|discriminate].
  apply Ok_inj in Erow. subst row'.
  rewrite Forall_lookup in Hrows. rewrite (Hrows _ _ Hi) in Ej.
  rewrite Hlen in Ei.
  apply py_norm_range in Ei, Ej; try lia.
  unfold indexable. lia.
Qed.

Lemma clear_path_loop_fuel (b : Board) (dr dc r2 c2 : Z) (fuel : nat) :
  wf_board b ->
  forall r c, leaves fuel dr dc r c = true ->
              clear_path_loop fuel b dr dc r c r2 c2 <> Err OutOfFuel.
Proof.
  intros Hwf. induction fuel as [|fuel IH]; simpl; intros r c H;
    [discriminate|].
  destruct (sq_eqb (r, c) (r2, c2)); [discriminate|].
  destruct (get b r c) as [x|e] eqn:Eg; simpl.
  - rewrite (get_indexable _ _ _ _ Hwf Eg) in H. simpl in H.
    destruct x; [discriminate|]. apply IH. exact H.
  - rewrite (get_err _ _ _ _ Eg). discriminate.
Qed.

Lemma every_walk_leaves_true : every_walk_leaves = true.
Proof. vm_compute. reflexivity. Qed.

Lemma unit_step_cases (a b : Z) :
  (a = b /\ unit_step a b = 0) \/ unit_step a b = -1 \/ unit_step a b = 1.
Proof.
  unfold unit_step.
  destruct (Z.lt_trichotomy a b) as [H|[H|H]].
  - right. right. rewrite Z.max_r, Z.abs_eq by lia. apply Z.div_same. lia.
  - left. subst. rewrite Z.sub_diag. auto.
  - right. left. rewrite Z.max_r, Z.abs_neq by lia.
    replace (b - a) with (-1 * - (b - a)) at 1 by lia.
    apply Z.div_mul. lia.
Qed.

(** [_clear_path] on an 8x8 board: the twenty iterations of the model are
    enough whatever the arguments. *)
Lemma clear_path_fuel (b : Board) (r1 c1 r2 c2 : Z) :
  wf_board b -> _clear_path b r1 c1 r2 c2 <> Err OutOfFuel.
Proof.
  intros Hwf. unfold _clear_path.
  fold (unit_step r1 r2). fold (unit_step c1 c2).
  set (dr := unit_step r1 r2). set (dc := unit_step c1 c2).
  destruct (indexable (r1 + dr) (c1 + dc)) eqn:Ei.
  - assert (Hd : (dr = 0 /\ dc = 0) \/ In (dr, dc) unit_steps).
    { unfold dr, dc, unit_steps.
      destruct (unit_step_cases r1 r2) as [[_ ->]|[->| ->]];
        destruct (unit_step_cases c1 c2) as [[_ ->]|[->| ->]];
        simpl; tauto. }
    destruct Hd as [[Hr Hc]|Hd].
    + assert (r1 = r2 /\ c1 = c2) as [-> ->].
      { unfold dr, dc in Hr, Hc.
        destruct (unit_step_cases r1 r2) as [[? _]|[?|?]];
          destruct (unit_step_cases c1 c2) as [[? _]|[?|?]]; lia. }
      rewrite Hr, Hc, !Z.add_0_r. simpl. rewrite sq_eqb_refl. discriminate.
    + apply clear_path_loop_fuel; [exact Hwf|].
      pose proof every_walk_leaves_true as H.
      unfold every_walk_leaves in H. rewrite forallb_forall in H.
      specialize (H _ Hd). cbv beta in H. simpl fst in H. simpl snd in H.
      rewrite forallb_forall in H.
      unfold indexable in Ei.
      assert (Hr : In (r1 + dr) range16) by (unfold range16; simpl; lia).
      assert (Hc : In (c1 + dc) range16) by (unfold range16; simpl; lia).
      specialize (H _ Hr). rewrite forallb_forall in H. apply (H _ Hc).
  - apply clear_path_loop_fuel; [exact Hwf|]. simpl. rewrite Ei. reflexivity.
Qed.

Lemma slide_loop_fuel (ext : Absent) (s : VideoChess) row col dr dc fuel :
  wf_board (board s) ->
  forall r c, walks_off fuel dr dc r c = true ->
              slide_loop fuel s row col dr dc r c <> Err OutOfFuel.
Proof.
  intros Hwf. induction fuel as [|fuel IH]; simpl; intros r c H;
    [discriminate|].
  destruct (_is_valid r c) eqn:Hv; [|discriminate]. simpl in H.
  rewrite (get_valid _ _ _ Hwf Hv). simpl.
  destruct (piece_at (board s) (r, c)) as [p|] eqn:Hp.
  - unfold _is_enemy. rewrite Hv, (get_valid _ _ _ Hwf Hv), Hp. discriminate.
  - specialize (IH _ _ H).
    destruct (slide_loop fuel s row col dr dc (r + dr) (c + dc));
      simpl; congruence.
Qed.

Lemma every_slide_walks_off_true : every_slide_walks_off = true.
Proof. vm_compute. reflexivity. Qed.

(** [_slide] from a square of an 8x8 board along one of the eight unit
    directions: the nine iterations of the model are enough. *)
Lemma slide_fuel (ext : Absent) (s : VideoChess) (row col dr dc : Z) :
  wf_board (board s) -> _is_valid row col = true -> In (dr, dc) unit_steps ->
  slide_loop 9 s row col dr dc (row + dr) (col + dc) <> Err OutOfFuel.
Proof.
  intros Hwf Hv Hd. apply (slide_loop_fuel ext); [exact Hwf|].
  pose proof every_slide_walks_off_true as H.
  unfold every_slide_walks_off in H. rewrite forallb_forall in H.
  specialize (H _ Hd). rewrite forallb_forall in H.
  apply (H _ (valid_squares _ _ Hv)).
Qed.

(** On an 8x8 board the encoder never leaves the Latin-1 range. *)
Lemma to_san_latin1 (s : VideoChess) (m : Move) :
  wf_board (board s) -> _to_san s m <> Err NonLatin1.
Proof.
  intros Hwf. unfold _to_san.
  destruct m as [[sr sc] [er ec] ep cs]. simpl.
  assert (Hchr : forall r c x, get (board s) r c = Ok x ->
                               exists t, chr (97 + c) = Ok t).
  { intros r c x E. pose proof (get_indexable _ _ _ _ Hwf E) as I.
    unfold indexable in I. unfold chr.
    replace ((97 + c <? 0) || (1114111 <? 97 + c)) with false by lia.
    replace (97 + c <? 256) with true by lia. eauto. }
  destruct (get (board s) sr sc) as [x|e] eqn:E1; simpl;
    [|rewrite (get_err _ _ _ _ E1); discriminate].
  destruct x as [p|]; [|discriminate].
  destruct (Hchr _ _ _ E1) as [t1 ->]. simpl.
  destruct (get (board s) er ec) as [y|e] eqn:E2; simpl;
    [|rewrite (get_err _ _ _ _ E2); discriminate].
  destruct (Hchr _ _ _ E2) as [t2 ->]. simpl. discriminate.
Qed.

(** * The claims *)

Section Claims.

Variable ext : Absent.

(** C1. In a well-formed state (every reachable state is one), every move
    of the list returned by [get_legal_moves] can be applied, and in the
    state it yields the in-check test for the mover is false: the mover's
    king is still on the board and no square holding a piece of the other
    colour attacks it. *)
Theorem C1_legal_moves_leave_king_safe (s : VideoChess) ms m :
  wf_state s -> get_legal_moves ext s = Ok ms -> In m ms ->
  exists s' kp,
    _apply_move ext s m = Ok s' /\
    _in_check ext s' (current_player s) = Ok false /\
    piece_at (board s') kp = Some (mkPiece (current_player s) King) /\
    forall q p,
      _is_valid (fst q) (snd q) = true ->
      piece_at (board s') q = Some p ->
      _color p = opposite (current_player s) ->
      _attacks ext s' q kp = Ok false.
Proof.
  intros Hwf H Hin.
  destruct (legal_facts ext _ _ _ Hwf H Hin)
    as (p0 & s' & Hvs & Hve & Hp0 & _ & _ & _ & Hs' & Hchk).
  destruct (apply_move_board ext _ _ _ _ (proj1 Hwf) Hvs Hve Hp0 Hs')
    as [Hwf' _].
  pose proof Hchk as Hc. unfold _in_check in Hc.
  inv_bind Hc as kp Ekp. inv_bind Hc as poss Eposs.
  exists s', kp.
  split; [exact Hs'|]. split; [exact Hchk|]. split.
  - rewrite (king_pos_scan _ _ Hwf') in Ekp.
    destruct (List.find _ squares) as [q|] eqn:Ef; [|discriminate].
    apply Ok_inj in Ekp. subst q. apply find_some in Ef as [_ Ef].
    apply is_king_of_true in Ef. exact Ef.
  - intros q p Hq Hp Hcol.
    apply (anyM_false _ _ Hc).
    rewrite (enemy_positions_scan _ _ Hwf') in Eposs.
    apply Ok_inj in Eposs. subst poss. apply filter_In. split.
    + destruct q. apply valid_squares. exact Hq.
    + rewrite Hp. apply is_color_Some. exact Hcol.
Qed.

(** C3 (what the source computes). After a successful application the
    halfmove clock is 0 when the piece that lands is a pawn or something
    was captured, and one more than before otherwise.  The piece that
    lands on the last row is the queen, not the pawn that moved. *)
Lemma halfmove_rule (s s' : VideoChess) (m : Move) :
  _apply_move ext s m = Ok s' ->
  exists p,
    piece_at (board s) (m_start m) = Some p /\
    halfmove s' =
      if kind_eqb (pkind (landing_piece s m p)) Pawn
         || match captured_piece s m with Some _ => true | None => false end
      then 0 else halfmove s + 1.
Proof.
  intros H.
  destruct (apply_move_fields ext _ _ _ H) as (p & Hp & _ & _ & _ & _ & Hh).
  eauto.
Qed.

(** C3. After 1.h4 g5 2.hxg5 h6 3.gxh6 Nf6 4.h7 Rg8, a reachable state,
    the move h7-h8 is in White's legal-move list; it moves a pawn to an
    empty square, and applying it takes the halfmove clock from 1 to 2
    instead of 0. *)
Theorem C3_promotion_does_not_reset_clock :
  exists s ms s',
    play_moves ext init game_promotion = Ok s /\
    reachable ext s /\
    get_legal_moves ext s = Ok ms /\ In promote_h8 ms /\
    is_kind Pawn s promote_h8 = true /\
    is_capture s promote_h8 = false /\
    _apply_move ext s promote_h8 = Ok s' /\
    piece_at (board s') (0, 7) = Some (mkPiece White Queen) /\
    halfmove s = 1 /\ halfmove s' = 2.
Proof.
  assert (Hplay : play_moves ext init game_promotion
                  = Ok (position ext game_promotion))
    by (vm_compute; reflexivity).
  exists (position ext game_promotion). eexists. eexists.
  split; [exact Hplay|].
  split; [exact (play_moves_reachable ext _ _ _ (reach_init ext) Hplay)|].
  split; [vm_compute; reflexivity|].
  split; [apply move_eqb_In; vm_compute; reflexivity|].
  split; [vm_compute; reflexivity|].
  split; [vm_compute; reflexivity|].
  split; [vm_compute; reflexivity|].
  split; [vm_compute; reflexivity|].
  split; vm_compute; reflexivity.
Qed.

(** C6. From the starting position the legal-move list has exactly 20
    entries, 16 of them pawn moves and 4 knight moves; none is a castling
    move and none is a capture. *)
Theorem C6_twenty_opening_moves :
  get_legal_moves ext init = Ok init_moves /\
  List.length init_moves = 20%nat /\
  List.length (List.filter (is_kind Pawn init) init_moves) = 16%nat /\
  List.length (List.filter (is_kind Knight init) init_moves) = 4%nat /\
  forallb (fun m => negb (is_castle m) && negb (is_capture init m))
          init_moves = true.
Proof.
  split; [vm_compute; reflexivity|].
  repeat split; vm_compute; reflexivity.
Qed.

(** C7. For a legal move that was applied: if it is a two-square pawn
    advance, the en passant target of the new state is the square the pawn
    skipped; otherwise the target is none; and a move flagged en passant
    is in the legal-move list of the new state only if the move just
    applied was a two-square pawn advance, and then it lands on the
    skipped square. *)
Theorem C7_en_passant_target (s s' : VideoChess) ms m :
  get_legal_moves ext s = Ok ms -> In m ms ->
  _apply_move ext s m = Ok s' ->
  (two_square_advance s m = true -> en_passant s' = Some (skipped m)) /\
  (two_square_advance s m = false -> en_passant s' = None) /\
  (forall ms' m',
      get_legal_moves ext s' = Ok ms' -> In m' ms' ->
      m_en_passant m' = true ->
      two_square_advance s m = true /\ m_end m' = skipped m).
Proof.
  intros H Hin Hs'.
  pose proof (two_square_target ext _ _ _ _ H Hin Hs') as Hep.
  split; [intros E; rewrite E in Hep; exact Hep|].
  split; [intros E; rewrite E in Hep; exact Hep|].
  intros ms' m' H' Hin' Hflag.
  destruct (legal_inv ext _ _ _ H' Hin') as [(l & Hl & Hml) _].
  destruct (pseudo_legal_shape ext _ _ _ Hl Hml) as (_ & p & _ & _ & Hsh).
  unfold move_shape in Hsh.
  destruct (m_start m') as [r c], (m_end m') as [r' c'].
  rewrite Hflag in Hsh.
  rewrite (castle_never_legal ext _ _ _ H' Hin') in Hsh.
  destruct Hsh as (_ & Ht & _). rewrite Hep in Ht.
  destruct (two_square_advance s m); [|discriminate].
  split; [reflexivity|congruence].
Qed.

(** C10. A legal move of a well-formed state can be applied; every square
    of the board other than the move's origin, its destination, the square
    of the pawn taken en passant and the castling rook's two squares holds
    the same piece before and after; the new board is the one snapshot
    appended to the history; and the side to move flips. *)
Theorem C10_frame (s : VideoChess) ms m :
  wf_state s -> get_legal_moves ext s = Ok ms -> In m ms ->
  exists s',
    _apply_move ext s m = Ok s' /\
    (forall q, _is_valid (fst q) (snd q) = true -> ~ touched m q ->
               piece_at (board s') q = piece_at (board s) q) /\
    history s' = history s ++ [board s'] /\
    current_player s' = opposite (current_player s).
Proof.
  intros Hwf H Hin.
  destruct (legal_facts ext _ _ _ Hwf H Hin)
    as (p & s' & Hvs & Hve & Hp & _ & _ & _ & Hs' & _).
  destruct (apply_move_board ext _ _ _ _ (proj1 Hwf) Hvs Hve Hp Hs')
    as [_ Hb].
  destruct (apply_move_fields ext _ _ _ Hs') as (_ & _ & _ & Hpl & Hh & _).
  exists s'.
  split; [exact Hs'|]. split; [|split; [exact Hh|exact Hpl]].
  intros q Hq Hnt. rewrite (Hb q Hq). unfold touched in Hnt.
  destruct (sq_eqb q (m_end m)) eqn:E1;
    [apply sq_eqb_spec in E1; tauto|].
  destruct (sq_eqb q (m_start m)) eqn:E2;
    [apply sq_eqb_spec in E2; tauto|].
  destruct (m_en_passant m); [|reflexivity].
  destruct (sq_eqb q (taken_square m)) eqn:E3;
    [apply sq_eqb_spec in E3; tauto|].
  reflexivity.
Qed.

Lemma legal_to_san (s : VideoChess) ms m :
  wf_state s -> get_legal_moves ext s = Ok ms -> In m ms ->
  exists p, piece_at (board s) (m_start m) = Some p /\
            _to_san s m = Ok (san_by_code s m (pkind p)).
Proof.
  intros Hwf H Hin.
  destruct (legal_facts ext _ _ _ Hwf H Hin)
    as (p & s' & Hvs & Hve & Hp & _).
  exists p. split; [exact Hp|].
  apply to_san_valid; auto. apply Hwf.
Qed.

(** C4 (amended). Decoding the encoding of a legal move against the
    legal-move list returns the first move of the list with that
    encoding; it is the move itself when no other move of the list is
    encoded the same. *)
Theorem C4_decode_returns_first_match (s : VideoChess) ms m :
  wf_state s -> get_legal_moves ext s = Ok ms -> In m ms ->
  exists t l1 m' l2,
    _to_san s m = Ok t /\
    _parse_san s t ms = Ok (Some m') /\
    ms = l1 ++ m' :: l2 /\
    _to_san s m' = Ok t /\
    (forall m0, In m0 l1 -> _to_san s m0 <> Ok t) /\
    ((forall m0, In m0 ms -> _to_san s m0 = Ok t -> m0 = m) -> m' = m).
Proof.
  intros Hwf H Hin.
  destruct (legal_to_san _ _ _ Hwf H Hin) as (p & _ & Ht).
  destruct (first_match _ _ _ _ Hin Ht) as (l1 & m' & l2 & E & Hm' & Hno).
  exists (san_by_code s m (pkind p)), l1, m', l2.
  split; [exact Ht|]. split.
  - rewrite E. apply parse_san_first; auto.
    intros m0 H0.
    destruct (legal_to_san s ms m0 Hwf H) as (p0 & _ & E0); [|eauto].
    rewrite E. apply in_or_app. auto.
  - split; [exact E|]. split; [exact Hm'|]. split; [exact Hno|].
    intros Huniq. apply Huniq; [|exact Hm'].
    rewrite E. apply in_or_app. right. left. reflexivity.
Qed.



(** C9. In a well-formed state where the only king of the side to move
    has an enemy rook next to it on its rank, the in-check computation
    returns true, and every move of the legal-move list either takes the
    rook or moves the king to another rank (between adjacent squares there
    is nothing to block).  The rook's ray is decided by the absent
    [_clear_straight], of which the specification's requirement is
    assumed. *)
Theorem C9_adjacent_rook_gives_check (s : VideoChess) (r c c' : Z) :
  row_rays_clear ext -> wf_state s ->
  sole_king (board s) (current_player s) (r, c) ->
  Z.abs (c' - c) = 1 -> _is_valid r c' = true ->
  piece_at (board s) (r, c')
    = Some (mkPiece (opposite (current_player s)) Rook) ->
  _in_check ext s (current_player s) = Ok true /\
  forall ms m,
    get_legal_moves ext s = Ok ms -> In m ms ->
    captures_on m (r, c') \/
    (m_start m = (r, c) /\ fst (m_end m) <> r).
Proof.
  intros Hext Hwf Hking Habs Hvr Hrook. split.
  - apply (rook_on_rank_checks ext s _ r c c'); auto; [apply Hwf|].
    intros x Hx. lia.
  - intros ms m H Hin.
    destruct (legal_facts ext _ _ _ Hwf H Hin)
      as (p & s' & Hvs & Hve & Hp & Hcol & Hsh & Hcs & Hs' & Hchk).
    destruct (apply_move_board ext _ _ _ _ (proj1 Hwf) Hvs Hve Hp Hs')
      as [Hwf' Hb].
    destruct Hking as (Hvk & Hk & Huniq).
    set (col := current_player s) in *.
    destruct (sq_eqb (r, c') (m_end m)) eqn:Eend.
    { left. left. apply sq_eqb_spec in Eend. auto. }
    destruct (m_en_passant m && sq_eqb (r, c') (taken_square m)) eqn:Etk.
    { left. right. apply andb_true_iff in Etk as [? Etk].
      apply sq_eqb_spec in Etk. auto. }
    assert (Estart : sq_eqb (r, c') (m_start m) = false).
    { destruct (sq_eqb (r, c') (m_start m)) eqn:E; [|reflexivity].
      apply sq_eqb_spec in E. rewrite <- E, Hrook in Hp.
      apply Some_inj in Hp. subst p. unfold _color in Hcol. simpl in Hcol.
      destruct col; discriminate. }
    assert (Hrook' : piece_at (board s') (r, c')
                     = Some (mkPiece (opposite col) Rook)).
    { rewrite (Hb (r, c') Hvr), Eend, Estart, Etk. exact Hrook. }
    destruct (sq_eqb (r, c) (m_start m)) eqn:Est.
    + (* the king moves *)
      apply sq_eqb_spec in Est.
      destruct (Z.eq_dec (fst (m_end m)) r) as [Erow|Erow]; [|right; auto].
      exfalso.
      rewrite <- Est, Hk in Hp. apply Some_inj in Hp. subst p.
      unfold move_shape in Hsh.
      destruct m as [[sr sc] [er ec] ep cs]. simpl in *.
      injection Est as <- <-. subst er cs.
      destruct ep; [destruct Hsh; discriminate|].
      destruct Hsh as (_ & _ & Hec).
      assert (Hne : ec <> c').
      { intros ->. rewrite sq_eqb_refl in Eend. discriminate. }
      assert (Hland : landing_piece s
                        (mkMove (r, c) (r, ec) false None)
                        (mkPiece col King) = mkPiece col King)
        by reflexivity.
      rewrite Hland in Hb.
      assert (Hc : _in_check ext s' col = Ok true).
      { apply (rook_on_rank_checks ext s' col r ec c'); auto.
        - split; [exact Hve|]. split.
          + rewrite (Hb (r, ec) Hve), sq_eqb_refl. reflexivity.
          + intros q Hq Hq'. rewrite (Hb q Hq) in Hq'.
            destruct (sq_eqb q (r, ec)) eqn:E1;
              [apply sq_eqb_spec in E1; exact E1|].
            destruct (sq_eqb q (r, c)) eqn:E2; [discriminate|].
            simpl in Hq'. apply (Huniq q Hq) in Hq'.
            subst q. rewrite sq_eqb_refl in E2. discriminate.
        - intros x Hx.
          assert (x = c /\ ec <> c) as [-> Hec'] by lia.
          assert (Hvx : _is_valid (fst (r, c)) (snd (r, c)) = true)
            by exact Hvk.
          rewrite (Hb (r, c) Hvx).
          rewrite (sq_eqb_neq (r, c) (r, ec)) by congruence.
          rewrite sq_eqb_refl. reflexivity. }
      rewrite Hc in Hchk. discriminate.
    + (* another piece moves *)
      exfalso.
      assert (Hnk : forall x, x <> mkPiece col King ->
                              landing_piece s m x <> mkPiece col King).
      { intros x Hx. unfold landing_piece.
        destruct (kind_eqb (pkind x) Pawn && _); [discriminate|exact Hx]. }
      assert (Hp' : p <> mkPiece col King).
      { intros ->. apply (Huniq _ Hvs) in Hp.
        rewrite Hp, sq_eqb_refl in Est. discriminate. }
      assert (Hothers : forall q,
                 _is_valid (fst q) (snd q) = true ->
                 piece_at (board s') q = Some (mkPiece col King) ->
                 q = (r, c) /\ sq_eqb (r, c) (m_end m) = false /\
                 m_en_passant m && sq_eqb (r, c) (taken_square m) = false).
      { intros q Hq Hq'. rewrite (Hb q Hq) in Hq'.
        destruct (sq_eqb q (m_end m)) eqn:E1.
        { apply Some_inj in Hq'. destruct (Hnk p Hp' Hq'). }
        destruct (sq_eqb q (m_start m)) eqn:E2; [discriminate|].
        destruct (m_en_passant m && sq_eqb q (taken_square m)) eqn:E3;
          [discriminate|].
        apply (Huniq q Hq) in Hq'. subst q. auto. }
      destruct (sq_eqb (r, c) (m_end m)
                || (m_en_passant m && sq_eqb (r, c) (taken_square m)))
        eqn:Eclob.
      * (* the king is removed from the board *)
        assert (Hc : king_pos s' col = Err StopIteration).
        { apply king_pos_none; [exact Hwf'|].
          intros q Hq Hq'. destruct (Hothers q Hq Hq') as (_ & E1 & E2).
          rewrite E1, E2 in Eclob. discriminate. }
        unfold _in_check in Hchk. rewrite Hc in Hchk. discriminate.
      * apply orb_false_iff in Eclob as [E1 E2].
        assert (Hc : _in_check ext s' col = Ok true).
        { apply (rook_on_rank_checks ext s' col r c c'); auto.
          - split; [exact Hvk|]. split.
            + rewrite (Hb (r, c) Hvk), E1, Est, E2. exact Hk.
            + intros q Hq Hq'. apply (Hothers q Hq Hq').
          - intros x Hx. lia. }
        rewrite Hc in Hchk. discriminate.
Qed.

End Claims.

(** * The claims on concrete positions *)

(** C2. After 1.Nf3 Nf6 2.g3 Ng8 3.Bg2 Nf6, a reachable state, White has
    the kingside right, is not in check, king and rook stand on e1 and h1
    with f1 and g1 empty and e1, f1, g1 not attacked, and the generator does
    propose the kingside castling move; but the applier raises on it (it
    indexes the list of rows by a tuple), so [get_legal_moves] raises and no
    legal-move list is returned at all. *)
Theorem C2_castling_move_is_never_listed :
  let s := position spec_absent game_castle in
  play_moves spec_absent init game_castle = Ok s /\
  reachable spec_absent s /\
  current_player s = White /\ check s = false /\
  right_of (rights_of (castling s) White) KSide = true /\
  piece_at (board s) (7, 4) = Some (mkPiece White King) /\
  piece_at (board s) (7, 7) = Some (mkPiece White Rook) /\
  piece_at (board s) (7, 5) = None /\ piece_at (board s) (7, 6) = None /\
  spec_attacked s 7 4 = false /\ spec_attacked s 7 5 = false /\
  spec_attacked s 7 6 = false /\
  (exists l, pseudo_legal_moves spec_absent s = Ok l /\ In castle_kingside l) /\
  _apply_move spec_absent s castle_kingside = Err TypeError /\
  get_legal_moves spec_absent s = Err TypeError.
Proof.
  intros s.
  assert (Hplay : play_moves spec_absent init game_castle = Ok s)
    by (vm_compute; reflexivity).
  split; [exact Hplay|].
  split; [exact (play_moves_reachable _ _ _ _ (reach_init _) Hplay)|].
  do 10 (split; [vm_compute; reflexivity|]).
  split.
  - eexists. split; [vm_compute; reflexivity|].
    apply move_eqb_In. vm_compute. reflexivity.
  - split; vm_compute; reflexivity.
Qed.

(** C4 (counterexample). After 1.Nf3 Nf6 2.Nd4 Ng8 3.Nb5 Nf6, a reachable
    state, the legal move Nb1-a3 is encoded like the earlier legal move
    Nb5-a3, and decoding its encoding returns that other move. *)
Lemma C4_counterexample :
  let s := position spec_absent game_knights in
  exists ms,
    reachable spec_absent s /\
    get_legal_moves spec_absent s = Ok ms /\
    In knight_b1_a3 ms /\
    _to_san s knight_b1_a3 = Ok "Nba3"%string /\
    _parse_san s "Nba3" ms = Ok (Some knight_b5_a3) /\
    knight_b5_a3 <> knight_b1_a3.
Proof.
  intros s.
  assert (Hplay : play_moves spec_absent init game_knights = Ok s)
    by (vm_compute; reflexivity).
  eexists.
  split; [exact (play_moves_reachable _ _ _ _ (reach_init _) Hplay)|].
  split; [vm_compute; reflexivity|].
  split; [apply move_eqb_In; vm_compute; reflexivity|].
  split; [vm_compute; reflexivity|].
  split; [vm_compute; reflexivity|].
  discriminate.
Qed.


(** ** Instances *)

Lemma C1_witness :
  wf_state init /\
  get_legal_moves spec_absent init = Ok init_moves /\
  In pawn_e2_e4 init_moves /\
  exists s' kp,
    _apply_move spec_absent init pawn_e2_e4 = Ok s' /\
    _in_check spec_absent s' (current_player init) = Ok false /\
    piece_at (board s') kp = Some (mkPiece (current_player init) King) /\
    forall q p,
      _is_valid (fst q) (snd q) = true ->
      piece_at (board s') q = Some p ->
      _color p = opposite (current_player init) ->
      _attacks spec_absent s' q kp = Ok false.
Proof.
  assert (Hwf : wf_state init)
    by (split; [split; [reflexivity|repeat constructor]|discriminate]).
  assert (Hms : get_legal_moves spec_absent init = Ok init_moves)
    by (vm_compute; reflexivity).
  assert (Hin : In pawn_e2_e4 init_moves)
    by (apply move_eqb_In; vm_compute; reflexivity).
  split; [exact Hwf|]. split; [exact Hms|]. split; [exact Hin|].
  exact (C1_legal_moves_leave_king_safe spec_absent init init_moves
           pawn_e2_e4 Hwf Hms Hin).
Defined.

Lemma C4_witness :
  wf_state init /\
  get_legal_moves spec_absent init = Ok init_moves /\
  In pawn_e2_e4 init_moves /\
  exists t l1 m' l2,
    _to_san init pawn_e2_e4 = Ok t /\
    _parse_san init t init_moves = Ok (Some m') /\
    init_moves = l1 ++ m' :: l2 /\
    _to_san init m' = Ok t /\
    (forall m0, In m0 l1 -> _to_san init m0 <> Ok t) /\
    ((forall m0, In m0 init_moves -> _to_san init m0 = Ok t ->
                 m0 = pawn_e2_e4) -> m' = pawn_e2_e4).
Proof.
  assert (Hwf : wf_state init)
    by (split; [split; [reflexivity|repeat constructor]|discriminate]).
  assert (Hms : get_legal_moves spec_absent init = Ok init_moves)
    by (vm_compute; reflexivity).
  assert (Hin : In pawn_e2_e4 init_moves)
    by (apply move_eqb_In; vm_compute; reflexivity).
  split; [exact Hwf|]. split; [exact Hms|]. split; [exact Hin|].
  exact (C4_decode_returns_first_match spec_absent init init_moves
           pawn_e2_e4 Hwf Hms Hin).
Defined.


Lemma C7_witness :
  let s' := position spec_absent [pawn_e2_e4] in
  get_legal_moves spec_absent init = Ok init_moves /\
  In pawn_e2_e4 init_moves /\
  _apply_move spec_absent init pawn_e2_e4 = Ok s' /\
  (two_square_advance init pawn_e2_e4 = true ->
   en_passant s' = Some (skipped pawn_e2_e4)) /\
  (two_square_advance init pawn_e2_e4 = false -> en_passant s' = None) /\
  (forall ms' m',
      get_legal_moves spec_absent s' = Ok ms' -> In m' ms' ->
      m_en_passant m' = true ->
      two_square_advance init pawn_e2_e4 = true /\
      m_end m' = skipped pawn_e2_e4).
Proof.
  intros s'.
  assert (Hms : get_legal_moves spec_absent init = Ok init_moves)
    by (vm_compute; reflexivity).
  assert (Hin : In pawn_e2_e4 init_moves)
    by (apply move_eqb_In; vm_compute; reflexivity).
  assert (Hs' : _apply_move spec_absent init pawn_e2_e4 = Ok s')
    by (vm_compute; reflexivity).
  split; [exact Hms|]. split; [exact Hin|]. split; [exact Hs'|].
  exact (C7_en_passant_target spec_absent init s' init_moves pawn_e2_e4
           Hms Hin Hs').
Defined.


Lemma C9_witness :
  let s := rook_check_state in
  row_rays_clear spec_absent /\ wf_state s /\
  sole_king (board s) (current_player s) (7, 4) /\
  Z.abs (3 - 4) = 1 /\ _is_valid 7 3 = true /\
  piece_at (board s) (7, 3)
    = Some (mkPiece (opposite (current_player s)) Rook) /\
  _in_check spec_absent s (current_player s) = Ok true /\
  forall ms m,
    get_legal_moves spec_absent s = Ok ms -> In m ms ->
    captures_on m (7, 3) \/ (m_start m = (7, 4) /\ fst (m_end m) <> 7).
Proof.
  intros s.
  assert (Hext : row_rays_clear spec_absent) by exact spec_row_rays_clear.
  assert (Hwf : wf_state s)
    by (split; [split; [reflexivity|repeat constructor]|discriminate]).
  assert (Hk : sole_king (board s) (current_player s) (7, 4))
    by (apply sole_king_b_sound; vm_compute; reflexivity).
  assert (Habs : Z.abs (3 - 4) = 1) by reflexivity.
  assert (Hv : _is_valid 7 3 = true) by reflexivity.
  assert (Hr : piece_at (board s) (7, 3)
               = Some (mkPiece (opposite (current_player s)) Rook))
    by (vm_compute; reflexivity).
  split; [exact Hext|]. split; [exact Hwf|]. split; [exact Hk|].
  split; [exact Habs|]. split; [exact Hv|]. split; [exact Hr|].
  exact (C9_adjacent_rook_gives_check spec_absent s 7 4 3
           Hext Hwf Hk Habs Hv Hr).
Defined.

Lemma C10_witness :
  wf_state init /\
  get_legal_moves spec_absent init = Ok init_moves /\
  In pawn_e2_e4 init_moves /\
  exists s',
    _apply_move spec_absent init pawn_e2_e4 = Ok s' /\
    (forall q, _is_valid (fst q) (snd q) = true -> ~ touched pawn_e2_e4 q ->
               piece_at (board s') q = piece_at (board init) q) /\
    history s' = history init ++ [board s'] /\
    current_player s' = opposite (current_player init).
Proof.
  assert (Hwf : wf_state init)
    by (split; [split; [reflexivity|repeat constructor]|discriminate]).
  assert (Hms : get_legal_moves spec_absent init = Ok init_moves)
    by (vm_compute; reflexivity).
  assert (Hin : In pawn_e2_e4 init_moves)
    by (apply move_eqb_In; vm_compute; reflexivity).
  split; [exact Hwf|]. split; [exact Hms|]. split; [exact Hin|].
  exact (C10_frame spec_absent init init_moves pawn_e2_e4 Hwf Hms Hin).
Defined.

(** * Further properties of the engine *)

(** ** The applier *)

Section ApplierMore.

Variable ext : Absent.

Lemma apply_move_counters (s s' : VideoChess) (m : Move) :
  _apply_move ext s m = Ok s' ->
  move_number s' =
    move_number s + match current_player s with White => 0 | Black => 1 end /\
  exists s1, board s1 = board s' /\
             _in_check ext s1 (current_player s') = Ok (check s').
Proof.
  unfold _apply_move.
  destruct m as [[sr sc] [er ec] ep cs]. simpl.
  intros H.
  inv_bind H as piece Epiece. inv_bind H as cap Ecap.
  inv_bind H as special Especial. destruct special as [b1 captured].
  destruct piece as [p|]; [|discriminate].
  inv_bind H as b2 Eb2. inv_bind H as b3 Eb3. inv_bind H as chk Echk.
  apply Ok_inj in H. subst s'. simpl. split.
  - destruct (current_player s); reflexivity.
  - eexists. split; [|exact Echk]. reflexivity.
Qed.

(** X1. A castling right that holds after a move was applied held before
    it: no move gives a right back. *)
Theorem X1_castling_rights_never_return (s s' : VideoChess) (m : Move) col sd :
  _apply_move ext s m = Ok s' ->
  right_of (rights_of (castling s') col) sd = true ->
  right_of (rights_of (castling s) col) sd = true.
Proof. apply rights_never_return. Qed.

(** X2. A move leaves the castling rights of the side that did not move
    as they are (also when it takes a rook on its corner), and it leaves all
    rights as they are unless the piece moved is a king or a rook. *)
Theorem X2_castling_rights_of_the_other_side (s s' : VideoChess) (m : Move) p :
  _apply_move ext s m = Ok s' ->
  piece_at (board s) (m_start m) = Some p ->
  rights_of (castling s') (opposite (current_player s))
    = rights_of (castling s) (opposite (current_player s)) /\
  (pkind p <> King -> pkind p <> Rook -> castling s' = castling s).
Proof.
  intros H Hp. destruct (apply_move_castling ext _ _ _ H) as (p' & Hp' & ->).
  rewrite Hp in Hp'. apply Some_inj in Hp'. subst p'.
  destruct (castling s) as [[wk wq] [bk bq]].
  split.
  - destruct (pkind p), (current_player s); reflexivity.
  - intros Hk Hr. destruct (pkind p); try reflexivity; contradiction.
Qed.

(** X3. Moving the king revokes both castling rights of the mover. *)
Theorem X3_king_move_revokes_both_rights (s s' : VideoChess) (m : Move) p :
  _apply_move ext s m = Ok s' ->
  piece_at (board s) (m_start m) = Some p -> pkind p = King ->
  rights_of (castling s') (current_player s) = mkRights false false.
Proof.
  intros H Hp Hk. destruct (apply_move_castling ext _ _ _ H) as (p' & Hp' & ->).
  rewrite Hp in Hp'. apply Some_inj in Hp'. subst p'. rewrite Hk.
  destruct (current_player s); reflexivity.
Qed.

(** X4. Moving a rook that stands in column 7 revokes the mover's kingside
    right and moving one that stands in column 0 the queenside right,
    whatever the row; the mover's other right is kept.  A rook moving from
    any other column changes nothing. *)
Theorem X4_rook_move_revokes_its_side (s s' : VideoChess) (m : Move) p :
  _apply_move ext s m = Ok s' ->
  piece_at (board s) (m_start m) = Some p -> pkind p = Rook ->
  let before := rights_of (castling s) (current_player s) in
  let after := rights_of (castling s') (current_player s) in
  (snd (m_start m) = 7 ->
   right_K after = false /\ right_Q after = right_Q before) /\
  (snd (m_start m) = 0 ->
   right_Q after = false /\ right_K after = right_K before) /\
  (snd (m_start m) <> 7 -> snd (m_start m) <> 0 -> after = before).
Proof.
  intros H Hp Hk. destruct (apply_move_castling ext _ _ _ H) as (p' & Hp' & E).
  rewrite Hp in Hp'. apply Some_inj in Hp'. subst p'. rewrite Hk in E.
  intros before after. subst before after. rewrite E. clear E.
  destruct (castling s) as [[wk wq] [bk bq]].
  split; [|split].
  - intros ->. destruct (current_player s); simpl; auto.
  - intros ->. destruct (current_player s); simpl; auto.
  - intros H7 H0.
    replace (snd (m_start m) =? 7) with false by lia.
    replace (snd (m_start m) =? 0) with false by lia.
    destruct (current_player s); reflexivity.
Qed.

(** X5. After a move between two squares of an 8x8 board the destination
    holds the mover's queen when the piece moved is a pawn that reaches row
    0 or row 7, and the piece moved itself otherwise; the origin, when it is
    another square, is empty. *)
Theorem X5_destination_and_promotion (s s' : VideoChess) (m : Move) p :
  wf_board (board s) ->
  _is_valid (fst (m_start m)) (snd (m_start m)) = true ->
  _is_valid (fst (m_end m)) (snd (m_end m)) = true ->
  piece_at (board s) (m_start m) = Some p ->
  _apply_move ext s m = Ok s' ->
  (pkind p = Pawn -> fst (m_end m) = 0 \/ fst (m_end m) = 7 ->
   piece_at (board s') (m_end m)
     = Some (mkPiece (current_player s) Queen)) /\
  (~ (pkind p = Pawn /\ (fst (m_end m) = 0 \/ fst (m_end m) = 7)) ->
   piece_at (board s') (m_end m) = Some p) /\
  (m_start m <> m_end m -> piece_at (board s') (m_start m) = None).
Proof.
  intros Hwf Hvs Hve Hp H.
  destruct (apply_move_board ext _ _ _ _ Hwf Hvs Hve Hp H) as [_ Hb].
  split; [|split].
  - intros Hk Hrow. rewrite (Hb _ Hve), sq_eqb_refl. unfold landing_piece.
    rewrite Hk. simpl.
    replace ((fst (m_end m) =? 0) || (fst (m_end m) =? 7)) with true by lia.
    reflexivity.
  - intros Hn. rewrite (Hb _ Hve), sq_eqb_refl. unfold landing_piece.
    destruct (kind_eqb (pkind p) Pawn) eqn:Ek; [|reflexivity].
    destruct ((fst (m_end m) =? 0) || (fst (m_end m) =? 7)) eqn:Er;
      [|reflexivity].
    exfalso. apply Hn. split; [destruct (pkind p); auto; discriminate|lia].
  - intros Hne. rewrite (Hb _ Hvs), (sq_eqb_neq _ _ Hne), sq_eqb_refl.
    reflexivity.
Qed.

(** X6. Two moves applied one after the other give the turn back to the
    same side, add exactly one to the move number and append the two boards
    to the history, in order. *)
Theorem X6_two_plies_make_a_move (s s1 s2 : VideoChess) (m1 m2 : Move) :
  _apply_move ext s m1 = Ok s1 ->
  _apply_move ext s1 m2 = Ok s2 ->
  current_player s2 = current_player s /\
  move_number s2 = move_number s + 1 /\
  history s2 = history s ++ [board s1; board s2].
Proof.
  intros H1 H2.
  destruct (apply_move_fields ext _ _ _ H1) as (_ & _ & _ & P1 & Hh1 & _).
  destruct (apply_move_fields ext _ _ _ H2) as (_ & _ & _ & P2 & Hh2 & _).
  destruct (apply_move_counters _ _ _ H1) as [N1 _].
  destruct (apply_move_counters _ _ _ H2) as [N2 _].
  split; [|split].
  - rewrite P2, P1. destruct (current_player s); reflexivity.
  - rewrite N2, N1, P1. destruct (current_player s); simpl; lia.
  - rewrite Hh2, Hh1, <- app_assoc. reflexivity.
Qed.

(** X7. The halfmove clock after a move: 0 when something was captured
    (on the destination, or beside the origin for a move flagged en
    passant) or when the piece moved is a pawn that does not reach row 0 or
    row 7; one more than before in every other case, a pawn stepping onto
    an empty square of row 0 or 7 included. *)
Theorem X7_halfmove_clock (s s' : VideoChess) (m : Move) p :
  _apply_move ext s m = Ok s' ->
  piece_at (board s) (m_start m) = Some p ->
  let captured :=
    occupied (board s) (if m_en_passant m then taken_square m else m_end m) in
  let pawn_stays :=
    kind_eqb (pkind p) Pawn
    && negb ((fst (m_end m) =? 0) || (fst (m_end m) =? 7)) in
  halfmove s' = if captured || pawn_stays then 0 else halfmove s + 1.
Proof.
  intros H Hp. simpl.
  destruct (apply_move_fields ext _ _ _ H)
    as (p' & Hp' & _ & _ & _ & _ & Hh).
  rewrite Hp in Hp'. apply Some_inj in Hp'. subst p'.
  rewrite Hh. clear Hh Hp. unfold landing_piece, captured_piece, occupied.
  assert (E : forall x : option Piece,
             (if kind_eqb
                   (pkind
                      (if kind_eqb (pkind p) Pawn
                          && ((fst (m_end m) =? 0) || (fst (m_end m) =? 7))
                       then mkPiece (current_player s) Queen else p)) Pawn
                 || match x with Some _ => true | None => false end
              then 0 else halfmove s + 1)
             = (if match x with Some _ => true | None => false end
                   || kind_eqb (pkind p) Pawn
                      && negb ((fst (m_end m) =? 0) || (fst (m_end m) =? 7))
                then 0 else halfmove s + 1)).
  { intros x.
    destruct (kind_eqb (pkind p) Pawn) eqn:Ek;
      destruct ((fst (m_end m) =? 0) || (fst (m_end m) =? 7));
      destruct x; simpl; rewrite ?Ek; reflexivity. }
  destruct (m_en_passant m); apply E.
Qed.

(** X8. On an 8x8 board the applier raises [AttributeError] for a move
    without the castle key whose origin is an empty square of the board, and
    [IndexError] for any move whose origin lies outside the index range
    from -8 to 7. *)
Theorem X8_applier_errors (s : VideoChess) (m : Move) :
  wf_board (board s) ->
  (_is_valid (fst (m_start m)) (snd (m_start m)) = true ->
   _is_valid (fst (m_end m)) (snd (m_end m)) = true ->
   piece_at (board s) (m_start m) = None -> m_castle m = None ->
   _apply_move ext s m = Err AttributeError) /\
  (indexable (fst (m_start m)) (snd (m_start m)) = false ->
   _apply_move ext s m = Err IndexError).
Proof.
  intros Hwf. unfold _apply_move.
  destruct m as [[sr sc] [er ec] ep cs]. simpl. split.
  - intros Hvs Hve Hp ->.
    rewrite (get_valid _ _ _ Hwf Hvs), Hp, (get_valid _ _ _ Hwf Hve). simpl.
    destruct ep; [|reflexivity].
    assert (Hvt : _is_valid sr ec = true).
    { apply valid_bounds in Hvs, Hve. apply valid_bounds. lia. }
    rewrite (get_valid _ _ _ Hwf Hvt). simpl.
    destruct (put_valid (board s) sr ec None Hwf Hvt) as (b' & -> & _).
    reflexivity.
  - intros Hi.
    destruct (get (board s) sr sc) as [x|e] eqn:E.
    + rewrite (get_indexable _ _ _ _ Hwf E) in Hi. discriminate.
    + rewrite (get_err _ _ _ _ E). reflexivity.
Qed.

End ApplierMore.

(** ** The generators on an 8x8 board *)

Lemma concatM_pure {A B} (f : A -> result (list B)) (g : A -> list B) l :
  (forall x, In x l -> f x = Ok (g x)) ->
  Loop.concatM f l = Ok (flat_map g l).
Proof.
  induction l as [|a l IH]; simpl; intros H; [reflexivity|].
  rewrite (H a (or_introl eq_refl)). simpl.
  rewrite IH by auto. reflexivity.
Qed.

Lemma concatM_exact {A B} (f : A -> result (list B)) (R : A -> B -> Prop) l :
  (forall x, In x l -> exists ys, f x = Ok ys /\ forall y, In y ys <-> R x y) ->
  exists ys, Loop.concatM f l = Ok ys /\
             forall y, In y ys <-> exists x, In x l /\ R x y.
Proof.
  induction l as [|a l IH]; simpl; intros H.
  - eexists. split; [reflexivity|]. intros y. split; [intros []|].
    intros (x & [] & _).
  - destruct (H a (or_introl eq_refl)) as (ys1 & -> & H1).
    destruct IH as (ys2 & -> & H2); [intros x Hx; apply H; right; exact Hx|].
    cbn [bind]. eexists. split; [reflexivity|].
    intros y. rewrite in_app_iff, H1, H2. split.
    + intros [Hy|(x & Hx & Hy)]; [exists a; auto|exists x; auto].
    + intros (x & [<-|Hx] & Hy); [left; exact Hy|right; exists x; auto].
Qed.

Lemma allM_pure {A} (p : A -> result bool) (q : A -> bool) l :
  (forall x, In x l -> p x = Ok (q x)) ->
  Loop.allM p l = Ok (forallb q l).
Proof.
  induction l as [|a l IH]; simpl; intros H; [reflexivity|].
  rewrite (H a (or_introl eq_refl)). simpl.
  destruct (q a); [apply IH; auto|reflexivity].
Qed.

Lemma is_empty_wf (s : VideoChess) (r c : Z) :
  wf_board (board s) ->
  _is_empty s r c = Ok (_is_valid r c && empty_at (board s) (r, c)).
Proof.
  intros Hwf. unfold _is_empty, empty_at, occupied.
  destruct (_is_valid r c) eqn:Hv; [|reflexivity].
  rewrite (get_valid _ _ _ Hwf Hv). simpl.
  destruct (piece_at (board s) (r, c)); reflexivity.
Qed.

Lemma is_enemy_wf (s : VideoChess) (r c : Z) :
  wf_board (board s) ->
  _is_enemy s r c = Ok (_is_valid r c && enemy_at s (r, c)).
Proof.
  intros Hwf. unfold _is_enemy, enemy_at.
  destruct (_is_valid r c) eqn:Hv; [|reflexivity].
  rewrite (get_valid _ _ _ Hwf Hv). simpl.
  destruct (piece_at (board s) (r, c)) as [[pc pk]|]; [|reflexivity].
  simpl. destruct pc, (current_player s); reflexivity.
Qed.

Lemma can_move_wf (s : VideoChess) (r c : Z) :
  wf_board (board s) ->
  _can_move s r c = Ok (_is_valid r c && negb (own_at s (r, c))).
Proof.
  intros Hwf. unfold _can_move.
  rewrite (is_empty_wf _ _ _ Hwf), (is_enemy_wf _ _ _ Hwf). simpl.
  unfold empty_at, occupied, enemy_at, own_at.
  destruct (_is_valid r c); [|reflexivity]. simpl.
  destruct (piece_at (board s) (r, c)) as [[pc pk]|]; [|reflexivity].
  simpl. destruct pc, (current_player s); reflexivity.
Qed.

Lemma step_moves_exact (s : VideoChess) (row col : Z) deltas :
  wf_board (board s) ->
  exists l, step_moves s row col deltas = Ok l /\
    forall m, In m l <->
      exists dr dc, In (dr, dc) deltas /\
        m = _create_move row col (row + dr) (col + dc) /\
        _is_valid (row + dr) (col + dc) = true /\
        own_at s (row + dr, col + dc) = false.
Proof.
  intros Hwf. unfold step_moves.
  rewrite (concatM_pure _
             (fun d : Z * Z =>
                if _is_valid (row + fst d) (col + snd d)
                   && negb (own_at s (row + fst d, col + snd d))
                then [_create_move row col (row + fst d) (col + snd d)]
                else [])).
  2:{ intros [dr dc] _. rewrite (can_move_wf _ _ _ Hwf). reflexivity. }
  eexists. split; [reflexivity|].
  intros m. rewrite in_flat_map. split.
  - intros ([dr dc] & Hd & Hm). simpl in Hm.
    destruct (_is_valid _ _ && _) eqn:E; [|destruct Hm].
    destruct Hm as [<-|[]]. apply andb_true_iff in E as [Hv Ho].
    apply negb_true_iff in Ho. exists dr, dc. auto.
  - intros (dr & dc & Hd & -> & Hv & Ho). exists (dr, dc).
    split; [exact Hd|]. simpl. rewrite Hv, Ho. simpl. auto.
Qed.

Lemma knight_deltas_spec (dr dc : Z) :
  In (dr, dc) knight_deltas <-> dr ^ 2 + dc ^ 2 = 5.
Proof.
  split.
  - unfold knight_deltas. simpl.
    intros H. repeat (destruct H as [H|H]; [injection H as <- <-; reflexivity|]).
    destruct H.
  - intros H.
    assert (Hr : -2 <= dr <= 2) by nia.
    assert (Hc : -2 <= dc <= 2) by nia.
    assert (Er : dr = -2 \/ dr = -1 \/ dr = 0 \/ dr = 1 \/ dr = 2) by lia.
    assert (Ec : dc = -2 \/ dc = -1 \/ dc = 0 \/ dc = 1 \/ dc = 2) by lia.
    unfold knight_deltas. simpl.
    destruct Er as [->|[->|[->|[->| ->]]]];
      destruct Ec as [->|[->|[->|[->| ->]]]];
      simpl in H; try discriminate H; tauto.
Qed.

Lemma king_deltas_spec (dr dc : Z) :
  In (dr, dc) king_deltas <-> Z.max (Z.abs dr) (Z.abs dc) = 1.
Proof.
  split.
  - unfold king_deltas. simpl.
    intros H. repeat (destruct H as [H|H]; [injection H as <- <-; reflexivity|]).
    destruct H.
  - intros H.
    assert (Er : dr = -1 \/ dr = 0 \/ dr = 1) by lia.
    assert (Ec : dc = -1 \/ dc = 0 \/ dc = 1) by lia.
    unfold king_deltas. simpl.
    destruct Er as [->|[->| ->]]; destruct Ec as [->|[->| ->]];
      simpl in H; try discriminate H; tauto.
Qed.

Section Generators.

Variable ext : Absent.

(** X9. On an 8x8 board [_knight_moves] returns, and returns exactly the
    moves from the given square to the squares of the board at a knight's
    jump (squared distances adding up to 5) that hold no piece of the side
    to move. *)
Theorem X9_knight_moves_exact (s : VideoChess) (row col : Z) :
  wf_board (board s) ->
  exists l, _knight_moves s row col = Ok l /\
    forall m, In m l <->
      exists r' c',
        m = _create_move row col r' c' /\
        (r' - row) ^ 2 + (c' - col) ^ 2 = 5 /\
        _is_valid r' c' = true /\ own_at s (r', c') = false.
Proof.
  intros Hwf. unfold _knight_moves.
  destruct (step_moves_exact s row col knight_deltas Hwf) as (l & -> & Hl).
  exists l. split; [reflexivity|]. intros m. rewrite Hl. split.
  - intros (dr & dc & Hd & -> & Hv & Ho).
    exists (row + dr), (col + dc). apply knight_deltas_spec in Hd.
    replace (row + dr - row) with dr by lia.
    replace (col + dc - col) with dc by lia. auto.
  - intros (r' & c' & -> & Hd & Hv & Ho).
    exists (r' - row), (c' - col). apply knight_deltas_spec in Hd.
    replace (row + (r' - row)) with r' by lia.
    replace (col + (c' - col)) with c' by lia. auto.
Qed.

Lemma castle_candidate_exact (s : VideoChess) (row col : Z) (sd : Side) :
  wf_board (board s) ->
  exists l, castle_candidate ext s row col sd = Ok l /\
    forall m, In m l <->
      m = mkMove (row, col)
                 (row, match sd with KSide => 6 | QSide => 2 end)
                 false (Some sd) /\
      check s = false /\
      right_of (rights_of (castling s) (current_player s)) sd = true /\
      (forall c, In c (match sd with KSide => [5; 6] | QSide => [1; 2; 3] end) ->
                 _is_valid row c = true /\ empty_at (board s) (row, c) = true) /\
      _attacked ext s row (match sd with KSide => 5 | QSide => 3 end) = false.
Proof.
  intros Hwf. unfold castle_candidate.
  rewrite (allM_pure _ (fun c => _is_valid row c && empty_at (board s) (row, c)))
    by (intros c _; apply is_empty_wf; exact Hwf).
  cbn [bind].
  destruct (negb (check s)) eqn:Ec; simpl.
  2:{ eexists. split; [reflexivity|]. intros m. split; [intros []|].
      intros (_ & Hc & _). rewrite Hc in Ec. discriminate. }
  apply negb_true_iff in Ec.
  destruct (right_of _ sd) eqn:Er.
  2:{ eexists. split; [reflexivity|]. intros m. split; [intros []|].
      intros (_ & _ & Hr & _). discriminate. }
  destruct (forallb _ _) eqn:Ef; simpl.
  2:{ eexists. split; [reflexivity|]. intros m. split; [intros []|].
      intros (_ & _ & _ & Hb & _).
      assert (Hf : forallb
                     (fun c => _is_valid row c && empty_at (board s) (row, c))
                     (match sd with KSide => [5; 6] | QSide => [1; 2; 3] end)
                   = true).
      { apply forallb_forall. intros c Hc. destruct (Hb c Hc) as [-> ->].
        reflexivity. }
      rewrite Hf in Ef. discriminate. }
  rewrite forallb_forall in Ef.
  destruct (_attacked ext s row _) eqn:Ea; simpl.
  - eexists. split; [reflexivity|]. intros m. split; [intros []|].
    intros (_ & _ & _ & _ & Ha). discriminate.
  - eexists. split; [reflexivity|]. intros m. split.
    + intros [<-|[]]. split; [reflexivity|]. split; [exact Ec|].
      split; [reflexivity|]. split; [|reflexivity].
      intros c Hc. apply andb_true_iff. apply Ef. exact Hc.
    + intros (-> & _). left. reflexivity.
Qed.

(** X10. On an 8x8 board [_king_moves] returns, and returns exactly: the
    moves to the neighbouring squares of the board that hold no piece of the
    side to move; and, for each side, the castling move two columns towards
    column 6 or 2 of the same row when the check flag is off, the mover has
    the right for that side, the squares of columns 5 and 6 (or 1, 2 and 3)
    of that row are empty squares of the board and [_attacked] is false for
    column 5 (or 3).  Neither the king's column nor a rook in the corner
    is looked at. *)
Theorem X10_king_moves_exact (s : VideoChess) (row col : Z) :
  wf_board (board s) ->
  exists l, _king_moves ext s row col = Ok l /\
    forall m, In m l <->
      (exists r' c',
          m = _create_move row col r' c' /\
          Z.max (Z.abs (r' - row)) (Z.abs (c' - col)) = 1 /\
          _is_valid r' c' = true /\ own_at s (r', c') = false) \/
      (exists sd,
          m = mkMove (row, col)
                     (row, match sd with KSide => 6 | QSide => 2 end)
                     false (Some sd) /\
          check s = false /\
          right_of (rights_of (castling s) (current_player s)) sd = true /\
          (forall c,
              In c (match sd with KSide => [5; 6] | QSide => [1; 2; 3] end) ->
              _is_valid row c = true /\ empty_at (board s) (row, c) = true) /\
          _attacked ext s row (match sd with KSide => 5 | QSide => 3 end)
            = false).
Proof.
  intros Hwf. unfold _king_moves.
  destruct (step_moves_exact s row col king_deltas Hwf) as (l & -> & Hl).
  destruct (castle_candidate_exact s row col KSide Hwf) as (k & -> & Hk).
  destruct (castle_candidate_exact s row col QSide Hwf) as (q & -> & Hq).
  cbn [bind]. eexists. split; [reflexivity|].
  intros m. rewrite !in_app_iff, Hl, Hk, Hq. split.
  - intros [(dr & dc & Hd & -> & Hv & Ho)|[H|H]].
    + left. exists (row + dr), (col + dc). apply king_deltas_spec in Hd.
      replace (row + dr - row) with dr by lia.
      replace (col + dc - col) with dc by lia. auto.
    + right. exists KSide. exact H.
    + right. exists QSide. exact H.
  - intros [(r' & c' & -> & Hd & Hv & Ho)|([] & H)].
    + left. exists (r' - row), (c' - col). apply king_deltas_spec in Hd.
      replace (row + (r' - row)) with r' by lia.
      replace (col + (c' - col)) with c' by lia. auto.
    + right. left. exact H.
    + right. right. exact H.
Qed.

Lemma own_enemy_at (s : VideoChess) (q : Square) :
  occupied (board s) q = true -> own_at s q = negb (enemy_at s q).
Proof.
  unfold occupied, own_at, enemy_at.
  destruct (piece_at (board s) q) as [[pc pk]|]; [|discriminate].
  intros _. simpl. destruct pc, (current_player s); reflexivity.
Qed.

Lemma empty_not_own (s : VideoChess) (q : Square) :
  empty_at (board s) q = true -> own_at s q = false.
Proof.
  unfold empty_at, occupied, own_at.
  destruct (piece_at (board s) q); [discriminate|reflexivity].
Qed.

Lemma step_0 (r d : Z) : r + Z.of_nat 0 * d = r.
Proof. lia. Qed.

Lemma step_S (r d : Z) (k : nat) :
  r + Z.of_nat (S k) * d = r + d + Z.of_nat k * d.
Proof. lia. Qed.

Lemma slide_loop_exact (s : VideoChess) (row col dr dc : Z) (fuel : nat) :
  wf_board (board s) ->
  forall r c, walks_off fuel dr dc r c = true ->
    exists l, slide_loop fuel s row col dr dc r c = Ok l /\
      forall m, In m l <->
        exists k : nat,
          m = _create_move row col (r + Z.of_nat k * dr) (c + Z.of_nat k * dc) /\
          _is_valid (r + Z.of_nat k * dr) (c + Z.of_nat k * dc) = true /\
          own_at s (r + Z.of_nat k * dr, c + Z.of_nat k * dc) = false /\
          forall j : nat, (j < k)%nat ->
            _is_valid (r + Z.of_nat j * dr) (c + Z.of_nat j * dc) = true /\
            empty_at (board s) (r + Z.of_nat j * dr, c + Z.of_nat j * dc)
            = true.
Proof.
  intros Hwf. induction fuel as [|fuel IH]; simpl; intros r c H;
    [discriminate|].
  destruct (_is_valid r c) eqn:Hv; simpl in H.
  - rewrite (get_valid _ _ _ Hwf Hv). cbn [bind].
    destruct (piece_at (board s) (r, c)) as [p|] eqn:Hp.
    + rewrite (is_enemy_wf _ _ _ Hwf), Hv. cbn [bind andb].
      assert (Hocc : occupied (board s) (r, c) = true)
        by (unfold occupied; rewrite Hp; reflexivity).
      pose proof (own_enemy_at s (r, c) Hocc) as Hoe.
      eexists. split; [reflexivity|]. intros m. split.
      * destruct (enemy_at s (r, c)) eqn:Ee; intros Hin; [|destruct Hin].
        destruct Hin as [<-|[]]. exists 0%nat. rewrite !step_0.
        split; [reflexivity|]. split; [exact Hv|].
        split; [rewrite Hoe; reflexivity|]. intros j Hj. lia.
      * intros (k & Hm & _ & Ho & Hbefore). destruct k as [|k].
        -- rewrite !step_0 in *.
           rewrite Ho in Hoe. symmetry in Hoe. apply negb_false_iff in Hoe.
           rewrite Hoe. left. auto.
        -- destruct (Hbefore 0%nat) as [_ He]; [lia|].
           rewrite !step_0 in He.
           unfold empty_at in He. rewrite Hocc in He. discriminate.
    + destruct (IH _ _ H) as (rest & -> & Hrest). cbn [bind].
      assert (Hemp : empty_at (board s) (r, c) = true)
        by (unfold empty_at, occupied; rewrite Hp; reflexivity).
      eexists. split; [reflexivity|]. intros m. split.
      * intros [<-|Hin].
        -- exists 0%nat. rewrite !step_0.
           split; [reflexivity|]. split; [exact Hv|].
           split; [apply empty_not_own; exact Hemp|]. intros j Hj. lia.
        -- apply Hrest in Hin as (k & Hm & Hvk & Ho & Hbefore).
           exists (S k). rewrite !step_S.
           split; [exact Hm|]. split; [exact Hvk|]. split; [exact Ho|].
           intros [|j] Hj.
           ++ rewrite !step_0. auto.
           ++ rewrite !step_S. apply Hbefore. lia.
      * intros (k & Hm & Hvk & Ho & Hbefore). destruct k as [|k].
        -- left. rewrite !step_0 in Hm. auto.
        -- right. apply Hrest. exists k. rewrite !step_S in Hm, Hvk, Ho.
           split; [exact Hm|]. split; [exact Hvk|]. split; [exact Ho|].
           intros j Hj. specialize (Hbefore (S j)).
           rewrite !step_S in Hbefore. apply Hbefore. lia.
  - eexists. split; [reflexivity|]. intros m. split; [intros []|].
    intros (k & _ & Hvk & _ & Hbefore). destruct k as [|k].
    + rewrite !step_0 in Hvk. congruence.
    + destruct (Hbefore 0%nat) as [Hv0 _]; [lia|].
      rewrite !step_0 in Hv0. congruence.
Qed.

Lemma valid_between (r c dr dc k j : Z) :
  In (dr, dc) unit_steps ->
  _is_valid r c = true -> _is_valid (r + k * dr) (c + k * dc) = true ->
  0 <= j <= k ->
  _is_valid (r + j * dr) (c + j * dc) = true.
Proof.
  intros Hd H0 Hk Hj. apply valid_bounds in H0, Hk. apply valid_bounds.
  unfold unit_steps in Hd. simpl in Hd.
  repeat (destruct Hd as [Hd|Hd]; [injection Hd as <- <-; lia|]).
  destruct Hd.
Qed.

(** X11. [_slide], which generates the bishop, rook and queen moves: from
    a square of an 8x8 board and for unit directions it returns, and
    returns exactly, the moves some number of steps along one of the
    directions to a square of the board that holds no piece of the side to
    move, every square passed on the way being empty. *)
Theorem X11_slide_exact (s : VideoChess) (row col : Z) (dirs : list (Z * Z)) :
  wf_board (board s) -> _is_valid row col = true ->
  (forall d, In d dirs -> In d unit_steps) ->
  exists l, _slide s row col dirs = Ok l /\
    forall m, In m l <->
      exists dr dc k,
        In (dr, dc) dirs /\ 1 <= k /\
        m = _create_move row col (row + k * dr) (col + k * dc) /\
        _is_valid (row + k * dr) (col + k * dc) = true /\
        own_at s (row + k * dr, col + k * dc) = false /\
        forall j, 1 <= j < k ->
                  empty_at (board s) (row + j * dr, col + j * dc) = true.
Proof.
  intros Hwf Hv Hdirs. unfold _slide.
  destruct (concatM_exact
              (fun '(dr, dc) =>
                 slide_loop 9 s row col dr dc (row + dr) (col + dc))
              (fun d m =>
                 exists k, 1 <= k /\
                   m = _create_move row col (row + k * fst d) (col + k * snd d) /\
                   _is_valid (row + k * fst d) (col + k * snd d) = true /\
                   own_at s (row + k * fst d, col + k * snd d) = false /\
                   forall j, 1 <= j < k ->
                     empty_at (board s) (row + j * fst d, col + j * snd d)
                     = true)
              dirs) as (l & El & Hl).
  { intros [dr dc] Hd. simpl fst. simpl snd.
    pose proof (Hdirs _ Hd) as Hu.
    assert (Hw : walks_off 9 dr dc (row + dr) (col + dc) = true).
    { pose proof every_slide_walks_off_true as H.
      unfold every_slide_walks_off in H. rewrite forallb_forall in H.
      specialize (H _ Hu). rewrite forallb_forall in H.
      apply (H _ (valid_squares _ _ Hv)). }
    destruct (slide_loop_exact s row col dr dc 9 Hwf _ _ Hw) as (l & El & Hl).
    exists l. split; [exact El|]. intros m. rewrite Hl.
    split.
    - intros (k & Hm & Hvk & Ho & Hb). exists (Z.of_nat k + 1).
      replace (row + (Z.of_nat k + 1) * dr) with (row + dr + Z.of_nat k * dr)
        by lia.
      replace (col + (Z.of_nat k + 1) * dc) with (col + dc + Z.of_nat k * dc)
        by lia.
      split; [lia|]. split; [exact Hm|]. split; [exact Hvk|].
      split; [exact Ho|].
      intros j Hj. destruct (Hb (Z.to_nat (j - 1))) as [_ He]; [lia|].
      rewrite Z2Nat.id in He by lia.
      replace (row + dr + (j - 1) * dr) with (row + j * dr) in He by lia.
      replace (col + dc + (j - 1) * dc) with (col + j * dc) in He by lia.
      exact He.
    - intros (k & Hk & Hm & Hvk & Ho & Hb). exists (Z.to_nat (k - 1)).
      rewrite Z2Nat.id by lia.
      replace (row + dr + (k - 1) * dr) with (row + k * dr) by lia.
      replace (col + dc + (k - 1) * dc) with (col + k * dc) by lia.
      split; [exact Hm|]. split; [exact Hvk|]. split; [exact Ho|].
      intros j Hj.
      replace (row + dr + Z.of_nat j * dr) with (row + (Z.of_nat j + 1) * dr)
        by lia.
      replace (col + dc + Z.of_nat j * dc) with (col + (Z.of_nat j + 1) * dc)
        by lia.
      split.
      + apply (valid_between row col dr dc k); auto. lia.
      + apply Hb. lia. }
  exists l. split; [exact El|]. intros m. rewrite Hl. split.
  - intros ([dr dc] & Hd & k & Hk). exists dr, dc, k. auto.
  - intros (dr & dc & k & Hd & Hk). exists (dr, dc). split; [exact Hd|].
    exists k. exact Hk.
Qed.

Lemma in_if_single {A} (b : bool) (x m : A) :
  In m (if b then [x] else []) <-> b = true /\ m = x.
Proof.
  destruct b; simpl; split; try tauto.
  - intros [<-|[]]. auto.
  - intros [_ ->]. auto.
  - intros [H _]. discriminate.
Qed.

Lemma in_en_passant_candidate (s : VideoChess) (q : Square) (x m : Move) :
  In m (match en_passant s with
        | Some t => if sq_eqb q t then [x] else []
        | None => []
        end) <-> en_passant s = Some q /\ m = x.
Proof.
  destruct (en_passant s) as [t|]; simpl.
  - rewrite in_if_single. split.
    + intros [E ->]. apply sq_eqb_spec in E. subst. auto.
    + intros [E ->]. injection E as ->. rewrite sq_eqb_refl. auto.
  - split; [intros []|intros [E _]; discriminate].
Qed.

(** X12. On an 8x8 board [_pawn_moves] returns, and returns exactly: the
    step to the next row (towards row 0 for White to move, row 7 for Black)
    when that square is an empty square of the board; the step of two rows
    from the mover's pawn row (6 or 1) when both squares are empty; for each
    neighbouring column the diagonal step onto a square holding a piece of
    the other side; and for each neighbouring column the diagonal step
    flagged en passant when that square is the en passant target, whatever
    the board holds there or beside the pawn. *)
Theorem X12_pawn_moves_exact (s : VideoChess) (row col : Z) :
  wf_board (board s) ->
  exists l, _pawn_moves s row col = Ok l /\
    forall m, In m l <->
      let d := pawn_dir (current_player s) in
      (m = _create_move row col (row + d) col /\
       _is_valid (row + d) col = true /\
       empty_at (board s) (row + d, col) = true) \/
      (m = _create_move row col (row + 2 * d) col /\
       row = pawn_home (current_player s) /\
       _is_valid (row + d) col = true /\
       empty_at (board s) (row + d, col) = true /\
       _is_valid (row + 2 * d) col = true /\
       empty_at (board s) (row + 2 * d, col) = true) \/
      (exists dc, (dc = -1 \/ dc = 1) /\
         ((m = _create_move row col (row + d) (col + dc) /\
           _is_valid (row + d) (col + dc) = true /\
           enemy_at s (row + d, col + dc) = true) \/
          (m = mkMove (row, col) (row + d, col + dc) true None /\
           en_passant s = Some (row + d, col + dc)))).
Proof.
  intros Hwf. unfold _pawn_moves.
  replace (match current_player s with White => -1 | Black => 1 end)
    with (pawn_dir (current_player s)) by reflexivity.
  replace (match current_player s with White => 6 | Black => 1 end)
    with (pawn_home (current_player s)) by reflexivity.
  set (d := pawn_dir (current_player s)).
  rewrite (is_empty_wf _ _ _ Hwf). cbn [bind].
  set (e1 := _is_valid (row + d) col && empty_at (board s) (row + d, col)).
  set (e2 := _is_valid (row + 2 * d) col
             && empty_at (board s) (row + 2 * d, col)).
  set (one := _create_move row col (row + d) col).
  set (two := _create_move row col (row + 2 * d) col).
  assert (Efwd :
            (if e1
             then
               if row =? pawn_home (current_player s)
               then let* x := _is_empty s (row + 2 * d) col in
                    Ok (if x then [one; two] else [one])
               else Ok [one]
             else Ok [])
            = Ok ((if e1 then [one] else [])
                  ++ if e1 && (row =? pawn_home (current_player s)) && e2
                     then [two] else [])).
  { rewrite (is_empty_wf _ _ _ Hwf). fold e2. cbn [bind].
    destruct e1, (row =? pawn_home (current_player s)), e2; reflexivity. }
  rewrite Efwd. cbn [bind]. clear Efwd.
  simpl Loop.concatM. rewrite !(is_enemy_wf _ _ _ Hwf). cbn [bind].
  eexists. split; [reflexivity|].
  intros m. cbv zeta.
  rewrite !in_app_iff, !in_if_single, !in_en_passant_candidate.
  unfold e1, e2. rewrite !andb_true_iff, Z.eqb_eq. fold one two.
  split.
  - intros [[[[Hv He] ->]|[[[[Hv He] Hh] [Hv2 He2]] ->]]
           |[[[[Hv He] ->]|[Ht ->]]
            |[[[[Hv He] ->]|[Ht ->]]|[]]]].
    + left. auto.
    + right. left. auto 10.
    + right. right. exists (-1). split; [auto|]. left. auto.
    + right. right. exists (-1). split; [auto|]. right. auto.
    + right. right. exists 1. split; [auto|]. left. auto.
    + right. right. exists 1. split; [auto|]. right. auto.
  - intros [(-> & Hv & He)|[(-> & Hh & Hv & He & Hv2 & He2)
                           |(dc & [-> | ->] & [(-> & Hv & He)|(-> & Ht)])]].
    + left. left. auto.
    + left. right. auto 10.
    + right. left. left. auto.
    + right. left. right. auto.
    + right. right. left. left. auto.
    + right. right. left. right. auto.
Qed.

End Generators.

(** ** Rays and attacks *)

Lemma unit_step_sgn (a b : Z) : unit_step a b = Z.sgn (b - a).
Proof.
  unfold unit_step.
  destruct (Z.lt_trichotomy a b) as [H|[H|H]].
  - rewrite Z.sgn_pos, Z.max_r, Z.abs_eq by lia. apply Z.div_same. lia.
  - subst. rewrite Z.sub_diag. reflexivity.
  - rewrite Z.sgn_neg, Z.max_r, Z.abs_neq by lia.
    replace (b - a) with (-1 * - (b - a)) at 1 by lia.
    apply Z.div_mul. lia.
Qed.

(** Two aligned squares lie on a line of unit direction. *)
Lemma aligned_line (r1 c1 r2 c2 : Z) :
  aligned (r1, c1) (r2, c2) = true ->
  let d := Z.max (Z.abs (r2 - r1)) (Z.abs (c2 - c1)) in
  let dr := Z.sgn (r2 - r1) in
  let dc := Z.sgn (c2 - c1) in
  r2 = r1 + d * dr /\ c2 = c1 + d * dc /\
  ((r1, c1) = (r2, c2) \/ (1 <= d /\ In (dr, dc) unit_steps)).
Proof.
  unfold aligned. simpl fst. simpl snd. intros H.
  assert (Ha : Z.abs (r2 - r1) = Z.abs (c2 - c1) \/ r2 - r1 = 0 \/ c2 - c1 = 0).
  { apply orb_true_iff in H as [H|H]; [apply orb_true_iff in H as [H|H]|].
    - left. apply Z.eqb_eq in H. nia.
    - right. left. lia.
    - right. right. lia. }
  clear H. unfold unit_steps. simpl In.
  destruct (Z.lt_trichotomy r1 r2) as [Hr|[Hr|Hr]];
    destruct (Z.lt_trichotomy c1 c2) as [Hc|[Hc|Hc]];
    rewrite ?(Z.sgn_pos (r2 - r1)), ?(Z.sgn_neg (r2 - r1)),
      ?(Z.sgn_pos (c2 - c1)), ?(Z.sgn_neg (c2 - c1)) by lia;
    try (subst r2; rewrite (Z.sub_diag r1));
    try (subst c2; rewrite (Z.sub_diag c1));
    simpl Z.sgn; simpl Z.abs;
    (split; [lia|]); (split; [lia|]);
    first [left; reflexivity | right; split; [lia|tauto]].
Qed.

Lemma line_aligned (r c dr dc k : Z) :
  In (dr, dc) unit_steps -> 1 <= k ->
  aligned (r, c) (r + k * dr, c + k * dc) = true /\
  Z.max (Z.abs (r + k * dr - r)) (Z.abs (c + k * dc - c)) = k /\
  Z.sgn (r + k * dr - r) = dr /\ Z.sgn (c + k * dc - c) = dc.
Proof.
  intros Hd Hk. unfold aligned. simpl fst. simpl snd.
  rewrite !orb_true_iff, !Z.eqb_eq.
  assert (Hs : forall x, (x = -1 \/ x = 0 \/ x = 1) ->
                         forall y, Z.sgn (y + k * x - y) = x).
  { intros x [->|[->| ->]] y.
    - apply Z.sgn_neg. lia.
    - apply Z.sgn_null. lia.
    - apply Z.sgn_pos. lia. }
  assert (Hx : (dr = -1 \/ dr = 0 \/ dr = 1) /\ (dc = -1 \/ dc = 0 \/ dc = 1)
               /\ (dr <> 0 \/ dc <> 0)).
  { unfold unit_steps in Hd. simpl in Hd.
    repeat (destruct Hd as [Hd|Hd]; [injection Hd as <- <-; lia|]).
    destruct Hd. }
  destruct Hx as (Hr & Hc & Hnz).
  split; [|split; [|split; [apply Hs; exact Hr|apply Hs; exact Hc]]].
  - destruct Hr as [->|[->| ->]]; destruct Hc as [->|[->| ->]]; nia.
  - destruct Hr as [->|[->| ->]]; destruct Hc as [->|[->| ->]]; lia.
Qed.

Lemma clear_loop_exact (b : Board) (r1 c1 dr dc d : Z) :
  wf_board b -> In (dr, dc) unit_steps ->
  _is_valid r1 c1 = true -> _is_valid (r1 + d * dr) (c1 + d * dc) = true ->
  forall (n : nat) (j : Z) (fuel : nat),
    1 <= j -> j + Z.of_nat n = d -> (n < fuel)%nat ->
    exists x,
      clear_path_loop fuel b dr dc (r1 + j * dr) (c1 + j * dc)
                      (r1 + d * dr) (c1 + d * dc) = Ok x /\
      (x = true <->
       forall k, j <= k < d -> piece_at b (r1 + k * dr, c1 + k * dc) = None).
Proof.
  intros Hwf Hd H1 H2. induction n as [|n IH]; intros j fuel Hj Hn Hf;
    (destruct fuel as [|fuel]; [lia|]); simpl.
  - replace j with d by lia. rewrite sq_eqb_refl.
    exists true. split; [reflexivity|]. split; [intros _ k Hk; lia|reflexivity].
  - assert (Hne : sq_eqb (r1 + j * dr, c1 + j * dc)
                         (r1 + d * dr, c1 + d * dc) = false).
    { apply sq_eqb_neq. intros E. injection E as Er Ec.
      unfold unit_steps in Hd. simpl in Hd.
      repeat (destruct Hd as [Hd|Hd]; [injection Hd as <- <-; lia|]).
      destruct Hd. }
    rewrite Hne.
    assert (Hv : _is_valid (r1 + j * dr) (c1 + j * dc) = true)
      by (apply (valid_between r1 c1 dr dc d); auto; lia).
    rewrite (get_valid _ _ _ Hwf Hv). cbn [bind].
    destruct (piece_at b (r1 + j * dr, c1 + j * dc)) as [p|] eqn:Hp.
    + exists false. split; [reflexivity|]. split; [discriminate|].
      intros H. rewrite (H j) in Hp by lia. discriminate.
    + destruct (IH (j + 1) fuel) as (x & Ex & Hx); try lia.
      replace (r1 + (j + 1) * dr) with (r1 + j * dr + dr) in Ex by lia.
      replace (c1 + (j + 1) * dc) with (c1 + j * dc + dc) in Ex by lia.
      exists x. split; [exact Ex|]. rewrite Hx. split.
      * intros H k Hk. destruct (Z.eq_dec k j) as [->|]; [exact Hp|].
        apply H. lia.
      * intros H k Hk. apply H. lia.
Qed.

(** X13. For two aligned squares of an 8x8 board (same row, same column or
    same diagonal) [_clear_path] returns a boolean, and it is true exactly
    when every square strictly between the two is empty; the squares
    themselves are not looked at. *)
Theorem X13_clear_path_exact (b : Board) (r1 c1 r2 c2 : Z) :
  wf_board b -> _is_valid r1 c1 = true -> _is_valid r2 c2 = true ->
  aligned (r1, c1) (r2, c2) = true ->
  exists x, _clear_path b r1 c1 r2 c2 = Ok x /\
    (x = true <->
     forall k, 0 < k < Z.max (Z.abs (r2 - r1)) (Z.abs (c2 - c1)) ->
               piece_at b (toward r1 c1 r2 c2 k) = None).
Proof.
  intros Hwf H1 H2 Ha. unfold _clear_path, toward.
  fold (unit_step r1 r2). fold (unit_step c1 c2).
  rewrite !unit_step_sgn.
  destruct (aligned_line _ _ _ _ Ha) as (Er & Ec & Hcase).
  set (d := Z.max (Z.abs (r2 - r1)) (Z.abs (c2 - c1))) in *.
  set (dr := Z.sgn (r2 - r1)) in *. set (dc := Z.sgn (c2 - c1)) in *.
  destruct Hcase as [E|[Hd Hu]].
  - injection E as <- <-.
    assert (dr = 0 /\ dc = 0 /\ d = 0) as (-> & -> & Ed).
    { unfold dr, dc, d. rewrite !Z.sub_diag. auto. }
    rewrite !Z.add_0_r. simpl. rewrite sq_eqb_refl.
    exists true. split; [reflexivity|]. split; [intros _ k Hk; lia|reflexivity].
  - assert (H2' : _is_valid (r1 + d * dr) (c1 + d * dc) = true)
      by (rewrite <- Er, <- Ec; exact H2).
    destruct (clear_loop_exact b r1 c1 dr dc d Hwf Hu H1 H2'
                (Z.to_nat (d - 1)) 1 20) as (x & Ex & Hx); try lia.
    { apply valid_bounds in H1, H2. unfold d. lia. }
    rewrite !Z.mul_1_l in Ex. rewrite <- Er, <- Ec in Ex.
    exists x. split; [exact Ex|]. rewrite Hx. split.
    + intros H k Hk. apply H. lia.
    + intros H k Hk. apply H. lia.
Qed.

Lemma enemy_not_own (s : VideoChess) (q : Square) :
  enemy_at s q = true -> own_at s q = false /\ empty_at (board s) q = false.
Proof.
  unfold enemy_at, own_at, empty_at, occupied.
  destruct (piece_at (board s) q) as [[pc pk]|]; [|discriminate].
  simpl. destruct pc, (current_player s); simpl; intros H;
    first [discriminate H | auto].
Qed.

Lemma empty_at_None (b : Board) (q : Square) :
  empty_at b q = true <-> piece_at b q = None.
Proof.
  unfold empty_at, occupied. destruct (piece_at b q); simpl; split;
    intros H; first [reflexivity | discriminate H].
Qed.

Lemma create_move_inj (r c r1 c1 r2 c2 : Z) :
  _create_move r c r1 c1 = _create_move r c r2 c2 -> r1 = r2 /\ c1 = c2.
Proof. unfold _create_move. intros H. injection H. auto. Qed.

Section Lockstep.

Variable ext : Absent.

Lemma queen_moves_exact (s : VideoChess) (row col : Z) :
  wf_board (board s) -> _is_valid row col = true ->
  exists l, _queen_moves s row col = Ok l /\
    forall m, In m l <->
      exists dr dc k,
        In (dr, dc) unit_steps /\ 1 <= k /\
        m = _create_move row col (row + k * dr) (col + k * dc) /\
        _is_valid (row + k * dr) (col + k * dc) = true /\
        own_at s (row + k * dr, col + k * dc) = false /\
        forall j, 1 <= j < k ->
                  empty_at (board s) (row + j * dr, col + j * dc) = true.
Proof.
  intros Hwf Hv. unfold _queen_moves, _rook_moves, _bishop_moves.
  destruct (X11_slide_exact s row col [(-1, 0); (1, 0); (0, -1); (0, 1)]
              Hwf Hv) as (a & -> & Ha).
  { unfold unit_steps. simpl. intros d Hd. tauto. }
  destruct (X11_slide_exact s row col [(-1, -1); (-1, 1); (1, -1); (1, 1)]
              Hwf Hv) as (b & -> & Hb).
  { unfold unit_steps. simpl. intros d Hd. tauto. }
  cbn [bind]. eexists. split; [reflexivity|].
  intros m. rewrite in_app_iff, Ha, Hb. split.
  - intros [(dr & dc & k & Hd & H)|(dr & dc & k & Hd & H)];
      exists dr, dc, k; (split; [|exact H]);
      unfold unit_steps; simpl in *; tauto.
  - intros (dr & dc & k & Hd & H).
    unfold unit_steps in Hd. simpl in Hd.
    assert (In (dr, dc) [(-1, 0); (1, 0); (0, -1); (0, 1)] \/
            In (dr, dc) [(-1, -1); (-1, 1); (1, -1); (1, 1)]) as [Hd'|Hd']
      by (simpl; tauto).
    + left. exists dr, dc, k. auto.
    + right. exists dr, dc, k. auto.
Qed.

Lemma queen_attack_exact (s : VideoChess) (row col r' c' : Z) p :
  wf_board (board s) ->
  _is_valid row col = true -> _is_valid r' c' = true ->
  (row, col) <> (r', c') ->
  piece_at (board s) (row, col) = Some p -> pkind p = Queen ->
  (_attacks ext s (row, col) (r', c') = Ok true <->
   exists dr dc k,
     In (dr, dc) unit_steps /\ 1 <= k /\
     r' = row + k * dr /\ c' = col + k * dc /\
     forall j, 1 <= j < k ->
               empty_at (board s) (row + j * dr, col + j * dc) = true).
Proof.
  intros Hwf Hv Hv' Hne Hp Hk. unfold _attacks.
  rewrite (get_valid _ _ _ Hwf Hv), Hp. cbn [bind]. rewrite Hk.
  change (((r' - row) ^ 2 =? (c' - col) ^ 2) || (r' - row =? 0)
          || (c' - col =? 0))
    with (aligned (row, col) (r', c')).
  destruct (aligned (row, col) (r', c')) eqn:Ha.
  - destruct (X13_clear_path_exact (board s) row col r' c' Hwf Hv Hv' Ha)
      as (x & -> & Hx).
    destruct (aligned_line _ _ _ _ Ha) as (Er & Ec & [E|[Hd Hu]]);
      [contradiction|].
    unfold toward in Hx.
    set (d := Z.max (Z.abs (r' - row)) (Z.abs (c' - col))) in *.
    set (dr := Z.sgn (r' - row)) in *. set (dc := Z.sgn (c' - col)) in *.
    split.
    + intros E. apply Ok_inj in E. pose proof (proj1 Hx E) as Hb.
      exists dr, dc, d. repeat split; auto.
      intros j Hj. apply empty_at_None. apply Hb. lia.
    + intros (dr' & dc' & k & Hu' & Hk' & -> & -> & Hb).
      destruct (line_aligned row col dr' dc' k Hu' Hk') as (_ & Ed & Edr & Edc).
      f_equal. apply (proj2 Hx). intros j Hj.
      unfold dr, dc. rewrite Edr, Edc. apply empty_at_None. apply Hb.
      unfold d in Hj. rewrite Ed in Hj. lia.
  - split; [discriminate|].
    intros (dr' & dc' & k & Hu' & Hk' & -> & -> & _).
    destruct (line_aligned row col dr' dc' k Hu' Hk') as (Ha' & _).
    rewrite Ha' in Ha. discriminate.
Qed.

(** X14. The generator and the attack test agree on captures.  On an 8x8
    board, for a pawn, knight, king or queen of the side to move and a
    square holding a piece of the other side, the plain move from the
    piece's square to that square is among the moves [_piece_moves] returns
    exactly when [_attacks] returns true for the two squares.  (For bishops
    and rooks the attack test is decided by helpers the source does not
    define.) *)
Theorem X14_captures_match_attacks (s : VideoChess) (row col r' c' : Z) p l :
  wf_board (board s) ->
  _is_valid row col = true -> _is_valid r' c' = true ->
  piece_at (board s) (row, col) = Some p -> _color p = current_player s ->
  pkind p <> Bishop -> pkind p <> Rook ->
  enemy_at s (r', c') = true ->
  _piece_moves ext s row col = Ok l ->
  (In (_create_move row col r' c') l <->
   _attacks ext s (row, col) (r', c') = Ok true).
Proof.
  intros Hwf Hv Hv' Hp Hcol Hnb Hnr He Hl.
  destruct (enemy_not_own _ _ He) as [Hown Hnemp].
  assert (Hne : (row, col) <> (r', c')).
  { intros E. injection E as <- <-. unfold enemy_at in He. rewrite Hp in He.
    simpl in He. rewrite Hcol in He. destruct (current_player s); discriminate. }
  unfold _piece_moves in Hl. rewrite (get_valid _ _ _ Hwf Hv), Hp in Hl.
  cbn [bind] in Hl.
  destruct (pkind p) eqn:Ek; try contradiction.
  - (* pawn *)
    destruct (X12_pawn_moves_exact s row col Hwf) as (l' & El & Hin).
    rewrite El in Hl. apply Ok_inj in Hl. subst l'. rewrite Hin. cbv zeta.
    unfold _attacks. rewrite (get_valid _ _ _ Hwf Hv), Hp. cbn [bind].
    rewrite Ek.
    replace (match _color p with Black => 1 | White => -1 end)
      with (pawn_dir (current_player s))
      by (rewrite Hcol; destruct (current_player s); reflexivity).
    set (d := pawn_dir (current_player s)). split.
    + intros [(E & _ & Hemp)|[(E & _ & _ & _ & _ & Hemp)
                              |(dc & Hdc & [(E & _ & _)|(E & _)])]].
      * apply create_move_inj in E as [-> ->]. congruence.
      * apply create_move_inj in E as [-> ->]. congruence.
      * apply create_move_inj in E as [-> ->]. f_equal.
        apply andb_true_iff. split; [lia|]. destruct Hdc as [-> | ->]; lia.
      * discriminate E.
    + intros E. apply Ok_inj in E. apply andb_true_iff in E as [E1 E2].
      right. right. exists (c' - col). split; [lia|]. left.
      replace (row + d) with r' by lia.
      replace (col + (c' - col)) with c' by lia. auto.
  - (* knight *)
    destruct (X9_knight_moves_exact s row col Hwf) as (l' & El & Hin).
    rewrite El in Hl. apply Ok_inj in Hl. subst l'. rewrite Hin.
    unfold _attacks. rewrite (get_valid _ _ _ Hwf Hv), Hp. cbn [bind].
    rewrite Ek. split.
    + intros (r2 & c2 & E & Hd & _). apply create_move_inj in E as [-> ->].
      f_equal. lia.
    + intros E. apply Ok_inj in E. exists r', c'. repeat split; auto. lia.
  - (* queen *)
    destruct (queen_moves_exact s row col Hwf Hv) as (l' & El & Hin).
    rewrite El in Hl. apply Ok_inj in Hl. subst l'. rewrite Hin.
    rewrite (queen_attack_exact s row col r' c' p Hwf Hv Hv' Hne Hp Ek).
    split.
    + intros (dr & dc & k & Hd & Hk & E & _ & _ & Hb).
      apply create_move_inj in E as [-> ->]. exists dr, dc, k. auto.
    + intros (dr & dc & k & Hd & Hk & -> & -> & Hb).
      exists dr, dc, k. repeat split; auto.
  - (* king *)
    destruct (X10_king_moves_exact ext s row col Hwf) as (l' & El & Hin).
    rewrite El in Hl. apply Ok_inj in Hl. subst l'. rewrite Hin.
    unfold _attacks. rewrite (get_valid _ _ _ Hwf Hv), Hp. cbn [bind].
    rewrite Ek. split.
    + intros [(r2 & c2 & E & Hd & _)|(sd & E & _)]; [|discriminate E].
      apply create_move_inj in E as [-> ->]. f_equal. lia.
    + intros E. apply Ok_inj in E. left. exists r', c'.
      repeat split; auto. lia.
Qed.

End Lockstep.

(** ** Invariants of the reachable states *)

Section Invariants.

Variable ext : Absent.

Lemma in_check_king (s : VideoChess) (col : Color) (x : bool) :
  wf_board (board s) -> _in_check ext s col = Ok x ->
  exists k, _is_valid (fst k) (snd k) = true /\
            piece_at (board s) k = Some (mkPiece col King).
Proof.
  intros Hwf H. unfold _in_check in H. inv_bind H as kp Ekp.
  rewrite (king_pos_scan _ _ Hwf) in Ekp.
  destruct (List.find _ squares) as [q|] eqn:Ef; [|discriminate].
  apply find_some in Ef as [Hq Ef]. apply is_king_of_true in Ef.
  exists q. split; [apply squares_valid; exact Hq|exact Ef].
Qed.

Lemma kings_stay_unique (s s' : VideoChess) (m : Move) p col k :
  wf_board (board s) ->
  _is_valid (fst (m_start m)) (snd (m_start m)) = true ->
  _is_valid (fst (m_end m)) (snd (m_end m)) = true ->
  piece_at (board s) (m_start m) = Some p ->
  _apply_move ext s m = Ok s' ->
  sole_king (board s) col k ->
  forall q1 q2,
    _is_valid (fst q1) (snd q1) = true -> _is_valid (fst q2) (snd q2) = true ->
    piece_at (board s') q1 = Some (mkPiece col King) ->
    piece_at (board s') q2 = Some (mkPiece col King) ->
    q1 = q2.
Proof.
  intros Hwf Hvs Hve Hp Hs' (Hvk & Hk & Huniq) q1 q2 Hq1 Hq2 H1 H2.
  destruct (apply_move_board ext _ _ _ _ Hwf Hvs Hve Hp Hs') as [_ Hb].
  assert (Hcase : forall q, _is_valid (fst q) (snd q) = true ->
            piece_at (board s') q = Some (mkPiece col King) ->
            (q = m_end m /\ p = mkPiece col King) \/
            (q = k /\ q <> m_start m /\ q <> m_end m)).
  { intros q Hq Hq'. rewrite (Hb q Hq) in Hq'.
    destruct (sq_eqb q (m_end m)) eqn:E1.
    - left. apply sq_eqb_spec in E1. split; [exact E1|].
      apply Some_inj in Hq'. unfold landing_piece in Hq'.
      destruct (kind_eqb (pkind p) Pawn && _); [discriminate|exact Hq'].
    - destruct (sq_eqb q (m_start m)) eqn:E2; [discriminate|].
      destruct (m_en_passant m && sq_eqb q (taken_square m));
        [discriminate|].
      right. split; [apply Huniq; assumption|]. split.
      + intros ->. rewrite sq_eqb_refl in E2. discriminate.
      + intros ->. rewrite sq_eqb_refl in E1. discriminate. }
  destruct (Hcase q1 Hq1 H1) as [[E1 P1]|(E1 & N1 & _)];
    destruct (Hcase q2 Hq2 H2) as [[E2 P2]|(E2 & N2 & _)]; try congruence.
  - subst p. apply (Huniq _ Hvs) in Hp. congruence.
  - subst p. apply (Huniq _ Hvs) in Hp. congruence.
Qed.

Lemma kings_after_legal_move (s s' : VideoChess) ms m kw kb :
  wf_state s -> get_legal_moves ext s = Ok ms -> In m ms ->
  _apply_move ext s m = Ok s' ->
  sole_king (board s) White kw -> sole_king (board s) Black kb ->
  exists kw' kb',
    sole_king (board s') White kw' /\ sole_king (board s') Black kb'.
Proof.
  intros Hwf H Hin Hs' Hw Hb.
  destruct (legal_facts ext _ _ _ Hwf H Hin)
    as (p & s0 & Hvs & Hve & Hp & Hc & _ & _ & Hs0 & Hchk).
  rewrite Hs' in Hs0. apply Ok_inj in Hs0. subst s0.
  destruct (apply_move_board ext _ _ _ _ (proj1 Hwf) Hvs Hve Hp Hs')
    as [Hwf' _].
  destruct (apply_move_fields ext _ _ _ Hs') as (_ & _ & _ & Hpl & _).
  destruct (apply_move_counters ext _ _ _ Hs') as (_ & s1 & Hb1 & Hchk1).
  assert (Hwf1 : wf_board (board s1)) by (rewrite Hb1; exact Hwf').
  destruct (in_check_king _ _ _ Hwf' Hchk) as (k1 & Hv1 & Hk1).
  destruct (in_check_king _ _ _ Hwf1 Hchk1) as (k2 & Hv2 & Hk2).
  rewrite Hb1, Hpl in Hk2.
  assert (Hsole : forall col k0 k,
            sole_king (board s) col k0 ->
            _is_valid (fst k) (snd k) = true ->
            piece_at (board s') k = Some (mkPiece col King) ->
            sole_king (board s') col k).
  { intros col k0 k Hk0 Hvk Hk. split; [exact Hvk|]. split; [exact Hk|].
    intros q Hq Hq'.
    apply (kings_stay_unique s s' m p col k0 (proj1 Hwf) Hvs Hve Hp Hs' Hk0);
      assumption. }
  destruct (current_player s); simpl in Hk2.
  - exists k1, k2. split; [apply (Hsole White kw)|apply (Hsole Black kb)];
      assumption.
  - exists k2, k1. split; [apply (Hsole White kw)|apply (Hsole Black kb)];
      assumption.
Qed.

(** X15. Every reachable state has exactly one king of each colour on
    its board: a move that would take a king makes the applier raise (the
    in-check test finds no king), so the filter never returns it. *)
Theorem X15_one_king_of_each_colour (s : VideoChess) :
  reachable ext s ->
  exists kw kb,
    sole_king (board s) White kw /\ sole_king (board s) Black kb.
Proof.
  induction 1 as [|s ms m s' Hr IH Hms Hin Hs'].
  - exists (7, 4), (0, 4).
    split; apply sole_king_b_sound; vm_compute; reflexivity.
  - destruct IH as (kw & kb & Hw & Hb).
    apply (kings_after_legal_move s s' ms m kw kb); auto.
    apply (reachable_wf ext). exact Hr.
Qed.

Lemma legal_piece_moves (s : VideoChess) ms m :
  get_legal_moves ext s = Ok ms -> In m ms ->
  exists p l,
    _is_valid (fst (m_start m)) (snd (m_start m)) = true /\
    piece_at (board s) (m_start m) = Some p /\
    _color p = current_player s /\
    _piece_moves ext s (fst (m_start m)) (snd (m_start m)) = Ok l /\
    In m l.
Proof.
  intros H Hin.
  destruct (legal_inv ext _ _ _ H Hin) as [(l0 & Hl0 & Hml) _].
  unfold pseudo_legal_moves in Hl0.
  destruct (concatM_In _ _ _ _ Hl0 Hml) as ([r c] & ys & Hsq & Hys & Hm).
  inv_bind Hys as x Ex. apply get_piece_at in Ex.
  destruct (is_color (current_player s) x) eqn:Ec;
    [|apply Ok_inj in Hys; subst ys; destruct Hm].
  destruct (is_color_true _ _ Ec) as (p & -> & Hcol).
  destruct (piece_moves_shape ext _ _ _ _ _ Hys Hm) as (_ & _ & Hst & _).
  rewrite Hst. simpl. exists p, ys.
  split; [apply (squares_valid _ Hsq)|]. auto.
Qed.

(** What is known of a legal two-square pawn advance. *)
Lemma double_step_facts (s : VideoChess) ms m :
  wf_state s -> get_legal_moves ext s = Ok ms -> In m ms ->
  two_square_advance s m = true ->
  let d := pawn_dir (current_player s) in
  let r := fst (m_start m) in
  let c := snd (m_start m) in
  m = _create_move r c (r + 2 * d) c /\
  r = pawn_home (current_player s) /\
  piece_at (board s) (m_start m) = Some (mkPiece (current_player s) Pawn) /\
  piece_at (board s) (r + d, c) = None /\
  skipped m = (r + d, c).
Proof.
  intros Hwf H Hin Htwo. cbv zeta.
  destruct (legal_piece_moves _ _ _ H Hin) as (p & l & Hv & Hp & Hc & Hl & Hml).
  unfold two_square_advance, is_kind, moved_kind in Htwo.
  rewrite Hp in Htwo. simpl in Htwo.
  apply andb_true_iff in Htwo as [Hk H2]. apply Z.eqb_eq in H2.
  assert (Ek : pkind p = Pawn) by (destruct (pkind p); auto; discriminate).
  unfold _piece_moves in Hl.
  destruct (m_start m) as [r c] eqn:Es. simpl in *.
  rewrite (get_valid _ _ _ (proj1 Hwf) Hv), Hp in Hl. cbn [bind] in Hl.
  rewrite Ek in Hl.
  destruct (X12_pawn_moves_exact s r c (proj1 Hwf)) as (l' & El & Hin').
  rewrite El in Hl. apply Ok_inj in Hl. subst l'.
  apply Hin' in Hml. cbv zeta in Hml.
  assert (Hd : pawn_dir (current_player s) = -1 \/
               pawn_dir (current_player s) = 1)
    by (destruct (current_player s); auto).
  destruct Hml as [(E & _)|[(E & Hh & _ & He & _)
                           |(dc & _ & [(E & _)|(E & _)])]];
    rewrite E in H2; simpl in H2; try lia.
  split; [exact E|]. split; [exact Hh|]. split.
  - rewrite Hp. f_equal. destruct p as [pc pk]. simpl in *. congruence.
  - split; [apply empty_at_None; exact He|].
    unfold skipped. rewrite E. simpl. f_equal.
    destruct Hd as [-> | ->].
    + replace (r + (r + 2 * -1)) with ((r - 1) * 2) by lia.
      rewrite Z.div_mul by lia. lia.
    + replace (r + (r + 2 * 1)) with ((r + 1) * 2) by lia.
      rewrite Z.div_mul by lia. lia.
Qed.

Lemma en_passant_target_after (s s' : VideoChess) ms m t :
  wf_state s -> get_legal_moves ext s = Ok ms -> In m ms ->
  _apply_move ext s m = Ok s' -> en_passant s' = Some t ->
  _is_valid (fst t) (snd t) = true /\
  fst t = match current_player s' with White => 2 | Black => 5 end /\
  piece_at (board s') t = None /\
  piece_at (board s') (fst t - pawn_dir (current_player s'), snd t)
    = Some (mkPiece (opposite (current_player s')) Pawn).
Proof.
  intros Hwf H Hin Hs' Ht.
  pose proof (apply_legal_wf ext _ _ _ _ Hwf H Hin Hs') as Hwf'.
  rewrite (two_square_target ext _ _ _ _ H Hin Hs') in Ht.
  destruct (two_square_advance s m) eqn:Htwo; [|discriminate].
  apply Some_inj in Ht.
  destruct (double_step_facts _ _ _ Hwf H Hin Htwo) as (E & Hh & Hp & He & Hsk).
  rewrite Hsk in Ht. subst t. simpl fst. simpl snd.
  destruct (legal_facts ext _ _ _ Hwf H Hin)
    as (p & s0 & Hvs & Hve & Hp0 & _).
  rewrite Hp in Hp0. apply Some_inj in Hp0. subst p.
  destruct (apply_move_board ext _ _ _ _ (proj1 Hwf) Hvs Hve Hp Hs')
    as [_ Hb].
  destruct (apply_move_fields ext _ _ _ Hs') as (_ & _ & _ & Hpl & _).
  rewrite Hpl.
  set (r := fst (m_start m)) in *. set (c := snd (m_start m)) in *.
  set (me := current_player s) in *.
  assert (Hst : m_start m = (r, c)) by (destruct (m_start m); reflexivity).
  assert (Hen : m_end m = (r + 2 * pawn_dir me, c)) by (rewrite E; reflexivity).
  assert (Hep : m_en_passant m = false) by (rewrite E; reflexivity).
  assert (Hd : (me = White /\ pawn_dir me = -1 /\ r = 6) \/
               (me = Black /\ pawn_dir me = 1 /\ r = 1)).
  { unfold pawn_home in Hh. fold me in Hh. destruct me; simpl; auto. }
  assert (Hvm : _is_valid (r + pawn_dir me) c = true).
  { rewrite Hen in Hve. cbn [fst snd] in Hve.
    apply valid_bounds in Hvs, Hve. apply valid_bounds.
    destruct Hd as [(_ & Y & _)|(_ & Y & _)]; rewrite Y in *; lia. }
  split; [exact Hvm|]. split.
  { destruct Hd as [(-> & -> & ->)|(-> & -> & ->)]; reflexivity. }
  split.
  - rewrite (Hb (r + pawn_dir me, c) Hvm), Hen, Hst, Hep.
    rewrite (sq_eqb_neq (r + pawn_dir me, c) (r + 2 * pawn_dir me, c)).
    2:{ intros X. injection X as X.
        destruct Hd as [(_ & Y & _)|(_ & Y & _)]; rewrite Y in X; lia. }
    rewrite (sq_eqb_neq (r + pawn_dir me, c) (r, c)).
    2:{ intros X. injection X as X.
        destruct Hd as [(_ & Y & _)|(_ & Y & _)]; rewrite Y in X; lia. }
    simpl. exact He.
  - replace (r + pawn_dir me - pawn_dir (opposite me))
      with (r + 2 * pawn_dir me)
      by (destruct Hd as [(-> & _)|(-> & _)]; simpl; lia).
    rewrite <- Hen. rewrite (Hb _ Hve), sq_eqb_refl.
    unfold landing_piece. simpl pkind. simpl kind_eqb.
    rewrite Hen. simpl fst.
    replace ((r + 2 * pawn_dir me =? 0) || (r + 2 * pawn_dir me =? 7))
      with false
      by (destruct Hd as [(_ & -> & ->)|(_ & -> & ->)]; reflexivity).
    simpl. destruct me; reflexivity.
Qed.

(** X16. In every reachable state the en passant target, if there is
    one, is an empty square of the board in row 2 (White to move) or row 5
    (Black to move), and the square one row further, on the mover's side
    of it, holds a pawn of the side that has just moved. *)
Theorem X16_en_passant_target_invariant (s : VideoChess) (t : Square) :
  reachable ext s -> en_passant s = Some t ->
  _is_valid (fst t) (snd t) = true /\
  fst t = match current_player s with White => 2 | Black => 5 end /\
  piece_at (board s) t = None /\
  piece_at (board s) (fst t - pawn_dir (current_player s), snd t)
    = Some (mkPiece (opposite (current_player s)) Pawn).
Proof.
  intros Hr Ht. destruct Hr as [|s0 ms m s' Hr Hms Hin Hs']; [discriminate|].
  apply (en_passant_target_after s0 s' ms m t); auto.
  apply (reachable_wf ext). exact Hr.
Qed.

(** X17. In a reachable state, a legal move flagged en passant takes a
    pawn of the other side from the square beside the origin (origin's row,
    destination's column) and puts the capturing pawn on the destination,
    which was empty; origin and the taken pawn's square are empty
    afterwards and the halfmove clock is 0. *)
Theorem X17_en_passant_capture (s s' : VideoChess) ms m :
  reachable ext s -> get_legal_moves ext s = Ok ms -> In m ms ->
  m_en_passant m = true -> _apply_move ext s m = Ok s' ->
  piece_at (board s) (taken_square m)
    = Some (mkPiece (opposite (current_player s)) Pawn) /\
  piece_at (board s) (m_end m) = None /\
  piece_at (board s') (taken_square m) = None /\
  piece_at (board s') (m_start m) = None /\
  piece_at (board s') (m_end m) = Some (mkPiece (current_player s) Pawn) /\
  halfmove s' = 0.
Proof.
  intros Hr H Hin Hflag Hs'.
  pose proof (reachable_wf ext _ Hr) as Hwf.
  destruct (legal_facts ext _ _ _ Hwf H Hin)
    as (p & s0 & Hvs & Hve & Hp & Hc & Hsh & Hcs & _).
  unfold move_shape in Hsh. unfold taken_square.
  destruct (apply_move_board ext _ _ _ _ (proj1 Hwf) Hvs Hve Hp Hs')
    as [_ Hb].
  destruct (apply_move_fields ext _ _ _ Hs') as (p' & Hp' & _ & _ & _ & _ & Hh).
  rewrite Hp in Hp'. apply Some_inj in Hp'. subst p'.
  unfold landing_piece in Hb, Hh. unfold taken_square in Hb.
  destruct m as [[r c] [r' c'] ep cs]. simpl in *. subst ep cs.
  destruct Hsh as (Hk & Ht & Hr' & Hc').
  destruct (X16_en_passant_target_invariant s (r', c') Hr Ht)
    as (_ & Hrow & Hempty & Hpawn).
  simpl in Hrow, Hpawn.
  assert (Ep : p = mkPiece (current_player s) Pawn).
  { destruct p as [pc pk]. simpl in *. congruence. }
  subst p. simpl in Hb, Hh.
  assert (Hlast : (r' =? 0) || (r' =? 7) = false).
  { rewrite Hrow. destruct (current_player s); reflexivity. }
  rewrite Hlast in Hb, Hh. simpl in Hh.
  assert (Hvt : _is_valid r c' = true).
  { apply valid_bounds in Hvs, Hve. apply valid_bounds. lia. }
  replace (r' - pawn_dir (current_player s)) with r in Hpawn by lia.
  split; [exact Hpawn|]. split; [exact Hempty|].
  split; [|split; [|split; [|exact Hh]]].
  - rewrite (Hb (r, c') Hvt).
    rewrite (sq_eqb_neq (r, c') (r', c')).
    2:{ intros X. injection X as X. destruct (current_player s);
          simpl in Hr'; lia. }
    rewrite (sq_eqb_neq (r, c') (r, c)) by (intros X; injection X as X; lia).
    rewrite sq_eqb_refl. reflexivity.
  - rewrite (Hb (r, c) Hvs).
    rewrite (sq_eqb_neq (r, c) (r', c')) by (intros X; injection X as X; lia).
    rewrite sq_eqb_refl. reflexivity.
  - rewrite (Hb (r', c') Hve), sq_eqb_refl. reflexivity.
Qed.

(** X18. The bookkeeping of every reachable state follows from the number
    of boards in its history: White is to move exactly when that number is
    even, the move number is one more than half of it, the halfmove clock
    lies between 0 and it, and the last board of the history is the current
    board. *)
Theorem X18_bookkeeping (s : VideoChess) :
  reachable ext s ->
  let n := List.length (history s) in
  current_player s = (if Nat.even n then White else Black) /\
  move_number s = 1 + Z.of_nat n / 2 /\
  0 <= halfmove s <= Z.of_nat n /\
  List.last (history s) (board init) = board s.
Proof.
  intros Hr. cbv zeta.
  induction Hr as [|s ms m s' Hr IH Hms Hin Hs'].
  - repeat split; simpl; lia.
  - destruct IH as (Hp & Hn & Hh & _).
    destruct (apply_move_fields ext _ _ _ Hs')
      as (p & _ & _ & Hpl & Hhist & _ & Hhalf).
    destruct (apply_move_counters ext _ _ _ Hs') as [Hnum _].
    rewrite Hhist, length_app, last_last. simpl List.length.
    rewrite Nat.add_1_r, Nat.even_succ, <- Nat.negb_even.
    rewrite Hpl, Hnum, Hp, Hn, Hhalf.
    set (n := List.length (history s)) in *.
    assert (Hpar : (Nat.even n = true /\ Z.of_nat n mod 2 = 0) \/
                   (Nat.even n = false /\ Z.of_nat n mod 2 = 1)).
    { destruct (Nat.even n) eqn:E.
      - left. split; [reflexivity|]. apply Nat.even_spec in E as [k ->].
        rewrite Nat2Z.inj_mul, Z.mul_comm. apply Z.mod_mul. lia.
      - right. split; [reflexivity|].
        assert (Nat.odd n = true) as Ho
          by (rewrite <- Nat.negb_even, E; reflexivity).
        apply Nat.odd_spec in Ho as [k ->].
        rewrite Nat2Z.inj_add, Nat2Z.inj_mul, Z.add_comm, Z.mul_comm.
        simpl Z.of_nat. rewrite Z.mod_add by lia. reflexivity. }
    assert (Hdiv : Z.of_nat n = 2 * (Z.of_nat n / 2) + Z.of_nat n mod 2)
      by (apply Z.div_mod; lia).
    assert (Hdiv' : Z.of_nat (S n) = 2 * (Z.of_nat (S n) / 2)
                                     + Z.of_nat (S n) mod 2)
      by (apply Z.div_mod; lia).
    assert (Hm' : 0 <= Z.of_nat (S n) mod 2 < 2)
      by (apply Z.mod_pos_bound; lia).
    split; [|split; [|split; [|reflexivity]]].
    + destruct Hpar as [[-> _]|[-> _]]; reflexivity.
    + destruct Hpar as [[-> Hm]|[-> Hm]]; simpl; lia.
    + destruct (_ || _); lia.
Qed.

End Invariants.

(** ** Legal moves, decoding, square names *)

Section LegalMore.

Variable ext : Absent.

Lemma plain_moves_avoid_own (s : VideoChess) (row col : Z) l m :
  wf_board (board s) -> _is_valid row col = true ->
  _piece_moves ext s row col = Ok l -> In m l ->
  m_castle m = None -> m_en_passant m = false ->
  own_at s (m_end m) = false.
Proof.
  intros Hwf Hv Hl Hin Hcs Hep. unfold _piece_moves in Hl.
  rewrite (get_valid _ _ _ Hwf Hv) in Hl. cbn [bind] in Hl.
  destruct (piece_at (board s) (row, col)) as [p|]; [|discriminate].
  destruct (pkind p).
  - destruct (X12_pawn_moves_exact s row col Hwf) as (l' & El & H).
    rewrite El in Hl. apply Ok_inj in Hl. subst l'.
    apply H in Hin. cbv zeta in Hin.
    destruct Hin as [(-> & _ & He)|[(-> & _ & _ & _ & _ & He)
                                   |(dc & _ & [(-> & _ & He)|(-> & _)])]].
    + apply empty_not_own. exact He.
    + apply empty_not_own. exact He.
    + apply enemy_not_own in He. tauto.
    + discriminate Hep.
  - destruct (X9_knight_moves_exact s row col Hwf) as (l' & El & H).
    rewrite El in Hl. apply Ok_inj in Hl. subst l'.
    apply H in Hin as (r' & c' & -> & _ & _ & Ho). exact Ho.
  - unfold _bishop_moves in Hl.
    destruct (X11_slide_exact s row col [(-1, -1); (-1, 1); (1, -1); (1, 1)]
                Hwf Hv) as (l' & El & H).
    { unfold unit_steps. simpl. intros d Hd. tauto. }
    rewrite El in Hl. apply Ok_inj in Hl. subst l'.
    apply H in Hin as (dr & dc & k & _ & _ & -> & _ & Ho & _). exact Ho.
  - unfold _rook_moves in Hl.
    destruct (X11_slide_exact s row col [(-1, 0); (1, 0); (0, -1); (0, 1)]
                Hwf Hv) as (l' & El & H).
    { unfold unit_steps. simpl. intros d Hd. tauto. }
    rewrite El in Hl. apply Ok_inj in Hl. subst l'.
    apply H in Hin as (dr & dc & k & _ & _ & -> & _ & Ho & _). exact Ho.
  - destruct (queen_moves_exact s row col Hwf Hv) as (l' & El & H).
    rewrite El in Hl. apply Ok_inj in Hl. subst l'.
    apply H in Hin as (dr & dc & k & _ & _ & -> & _ & Ho & _). exact Ho.
  - destruct (X10_king_moves_exact ext s row col Hwf) as (l' & El & H).
    rewrite El in Hl. apply Ok_inj in Hl. subst l'.
    apply H in Hin as [(r' & c' & -> & _ & _ & Ho)|(sd & -> & _)].
    + exact Ho.
    + discriminate Hcs.
Qed.

(** X19. Every move of a legal-move list, in a state with an 8x8 board
    and an en passant target on the board, starts on a square holding a
    piece of the side to move, stays on the board, is not a castling move,
    and, unless it is flagged en passant, does not land on a piece of the
    side to move. *)
Theorem X19_legal_moves_move_own_pieces (s : VideoChess) ms m :
  wf_state s -> get_legal_moves ext s = Ok ms -> In m ms ->
  own_at s (m_start m) = true /\
  _is_valid (fst (m_start m)) (snd (m_start m)) = true /\
  _is_valid (fst (m_end m)) (snd (m_end m)) = true /\
  m_castle m = None /\
  (m_en_passant m = false -> own_at s (m_end m) = false).
Proof.
  intros Hwf H Hin.
  destruct (legal_facts ext _ _ _ Hwf H Hin)
    as (p & s' & Hvs & Hve & Hp & Hc & _ & Hcs & _).
  destruct (legal_piece_moves ext _ _ _ H Hin)
    as (p' & l & _ & _ & _ & Hl & Hml).
  split; [|split; [exact Hvs|split; [exact Hve|split; [exact Hcs|]]]].
  - unfold own_at. rewrite Hp. apply is_color_Some. exact Hc.
  - intros Hep.
    apply (plain_moves_avoid_own s _ _ l m (proj1 Hwf) Hvs Hl Hml Hcs Hep).
Qed.

End LegalMore.

Lemma string_app_assoc (a b c : string) :
  ((a ++ b) ++ c = a ++ (b ++ c))%string.
Proof. induction a as [|x a IH]; simpl; [reflexivity|]. rewrite IH. reflexivity. Qed.

Lemma string_eqb_neq (a b : string) : String.eqb a b = false -> a <> b.
Proof. intros H E. subst. rewrite String.eqb_refl in H. discriminate. Qed.

(** X20. [_parse_san] on any list: when it returns a move, that move is
    in the list, its encoding is the text, and every move before it has an
    encoding different from the text; when it returns [None], every move of
    the list has an encoding different from the text; and when it raises,
    the encoder raises the same exception on a move of the list. *)
Theorem X20_parse_san_sound (s : VideoChess) (t : string) (ms : list Move) :
  (forall m, _parse_san s t ms = Ok (Some m) ->
     exists l1 l2, ms = l1 ++ m :: l2 /\ _to_san s m = Ok t /\
       forall m0, In m0 l1 -> exists u, _to_san s m0 = Ok u /\ u <> t) /\
  (_parse_san s t ms = Ok None ->
     forall m0, In m0 ms -> exists u, _to_san s m0 = Ok u /\ u <> t) /\
  (forall e, _parse_san s t ms = Err e ->
     exists m0, In m0 ms /\ _to_san s m0 = Err e).
Proof.
  induction ms as [|a ms (IH1 & IH2 & IH3)]; simpl.
  - split; [intros m H; discriminate|]. split; [intros _ m0 []|].
    intros e H. discriminate.
  - destruct (_to_san s a) as [u|e0] eqn:Ea; simpl.
    + destruct (String.eqb u t) eqn:E.
      * apply String.eqb_eq in E. subst u.
        split; [|split; [discriminate|discriminate]].
        intros m H. apply Ok_inj in H. apply Some_inj in H. subst m.
        exists [], ms. split; [reflexivity|]. split; [exact Ea|]. intros ? [].
      * apply string_eqb_neq in E. split; [|split].
        -- intros m H. destruct (IH1 m H) as (l1 & l2 & -> & Hm & Hb).
           exists (a :: l1), l2. split; [reflexivity|]. split; [exact Hm|].
           intros m0 [<-|H0]; [eauto|auto].
        -- intros H m0 [<-|H0]; [eauto|auto].
        -- intros e H. destruct (IH3 e H) as (m0 & H0 & He). eauto.
    + split; [discriminate|]. split; [discriminate|].
      intros e H. injection H as <-. eauto.
Qed.

Lemma square_name_inj_check :
  forallb
    (fun q1 =>
       forallb
         (fun q2 => implb (String.eqb (square_name q1) (square_name q2))
                          (sq_eqb q1 q2))
         squares)
    squares = true.
Proof. vm_compute. reflexivity. Qed.

Lemma to_algebraic_valid (q : Square) :
  _is_valid (fst q) (snd q) = true ->
  _to_algebraic (Some q) = Ok (Some (square_name q)).
Proof.
  intros Hv. destruct q as [r c]. simpl in Hv. apply valid_bounds in Hv.
  unfold _to_algebraic, square_name. simpl fst. simpl snd.
  rewrite (chr_file c), (str_rank r) by lia. reflexivity.
Qed.

(** X21. [_to_algebraic] returns [None] for no square; on the squares of
    the board it returns a name for each, different squares get different
    names; and whenever the encoder returns a text for a move, the text ends
    with the name [_to_algebraic] gives to the move's destination. *)
Theorem X21_square_names :
  _to_algebraic None = Ok None /\
  (forall q1 q2,
      _is_valid (fst q1) (snd q1) = true ->
      _is_valid (fst q2) (snd q2) = true ->
      exists n1 n2,
        _to_algebraic (Some q1) = Ok (Some n1) /\
        _to_algebraic (Some q2) = Ok (Some n2) /\
        (n1 = n2 -> q1 = q2)) /\
  (forall s m t,
      _to_san s m = Ok t ->
      exists front name,
        _to_algebraic (Some (m_end m)) = Ok (Some name) /\
        t = (front ++ name)%string).
Proof.
  split; [reflexivity|]. split.
  - intros q1 q2 H1 H2.
    exists (square_name q1), (square_name q2).
    split; [apply to_algebraic_valid; exact H1|].
    split; [apply to_algebraic_valid; exact H2|].
    intros E. pose proof square_name_inj_check as H.
    rewrite forallb_forall in H. destruct q1 as [r1 c1], q2 as [r2 c2].
    simpl in H1, H2.
    specialize (H _ (valid_squares _ _ H1)). rewrite forallb_forall in H.
    specialize (H _ (valid_squares _ _ H2)). cbv beta in H.
    rewrite E, String.eqb_refl in H. apply sq_eqb_spec. exact H.
  - intros s m t H. unfold _to_san in H.
    destruct m as [[sr sc] [er ec] ep cs]. simpl in *.
    inv_bind H as x Ex. destruct x as [p|]; [|discriminate].
    inv_bind H as file Ef. inv_bind H as y Ey. inv_bind H as dfile Ed.
    apply Ok_inj in H. subst t. rewrite Ed. cbn [bind].
    eexists. eexists. split; [reflexivity|].
    rewrite <- !string_app_assoc. reflexivity.
Qed.
